(** * CUPS option routines (cups/options.c)

    A shallow embedding of [cupsAddOption], [cupsRemoveOption] and
    [cupsParseOptions], and the properties of the option store and of the
    option-string parser proved about them.

    Conventions of the embedding.

    - A [char] is an [ascii] (one byte); the terminator of a C string is
      [NUL].  A [const char *] is modelled by the bytes stored from that
      address on, [None] being the null pointer; every string routine
      reads them up to the first terminator only ([cstring]).
    - An [int] is a [Z].  The places where the code adds to an [int]
      ([num_options + 1] in the size asked of [realloc], [depth ++] /
      [depth --]) leave the range of [int] only through a signed
      overflow, which C leaves undefined: the embedding answers
      [Undefined] there.  ([num_options ++], behind the allocation, is
      then within the range.)
    - [cups_option_t **options] is [None] when the pointer is null and
      [Some array] otherwise, [array] being the block [*options] points
      to, slot by slot ([[]] when [*options] is null).  Reading a slot
      the block does not have is [Undefined].
    - [malloc], [realloc] and [strdup] may fail: the caller of the
      embedding says which requests succeed. *)

From Stdlib Require Import ZArith Ascii String Lia.
From stdpp Require Import base list.

(** ** Outcomes *)

(** What a call does: it returns ([Done]), it runs into behaviour the C
    standard leaves undefined ([Undefined]), or the loop budget of the
    embedding ran out before the C loop ended ([Exhausted]; lemma
    [cupsParseOptions_terminates] shows that the parser never does). *)
Inductive outcome (A : Type) : Type :=
  | Done (a : A)
  | Undefined
  | Exhausted.
Arguments Done {A} a.
Arguments Undefined {A}.
Arguments Exhausted {A}.

#[export] Instance outcome_ret : MRet outcome := @Done.
#[export] Instance outcome_bind : MBind outcome := fun A B f m =>
  match m with
  | Done a => f a
  | Undefined => Undefined
  | Exhausted => Exhausted
  end.

(** ** Characters and the C library *)

Definition NUL : ascii := "000"%char.
Definition dquote : ascii := "034"%char.
Definition squote : ascii := "039"%char.
Definition backslash : ascii := "092"%char.

Definition INT_MAX : Z := 2147483647.
Definition INT_MIN : Z := -2147483648.

(** The byte value of a character, [0 .. 255]: what [*ptr & 255] is. *)
Definition code (c : ascii) : Z := Z.of_N (N_of_ascii c).

(** [isspace] in the "C" locale: space, and the controls [\t \n \v \f \r]. *)
Definition isspace (c : ascii) : bool :=
  (code c =? 32)%Z || ((9 <=? code c)%Z && (code c <=? 13)%Z).

(** [tolower] in the "C" locale. *)
Definition tolower (c : ascii) : Z :=
  if ((65 <=? code c) && (code c <=? 90))%Z then (code c + 32)%Z else code c.

(** The C string stored at an address: the bytes before the first
    terminator. *)
Fixpoint cstring (s : list ascii) : list ascii :=
  match s with
  | [] => []
  | c :: s' => if Ascii.eqb c NUL then [] else c :: cstring s'
  end.

(** [strcasecmp]: the difference of the first two bytes that differ once
    lowered, [0] when the strings are equal up to letter case. *)
Fixpoint strcasecmp (s1 s2 : list ascii) : Z :=
  match s1, s2 with
  | c1 :: s1', c2 :: s2' =>
      if (tolower c1 =? tolower c2)%Z
      then (if Ascii.eqb c1 NUL then 0%Z else strcasecmp s1' s2')
      else (tolower c1 - tolower c2)%Z
  | c1 :: _, [] => tolower c1
  | [], c2 :: _ => (0 - tolower c2)%Z
  | [], [] => 0%Z
  end.

(** [strncasecmp]: the same over at most [n] bytes. *)
Fixpoint strncasecmp (s1 s2 : list ascii) (n : nat) : Z :=
  match n with
  | O => 0%Z
  | S n' =>
      let c1 := hd NUL s1 in
      let c2 := hd NUL s2 in
      if (tolower c1 =? tolower c2)%Z
      then (if Ascii.eqb c1 NUL then 0%Z else strncasecmp (tl s1) (tl s2) n')
      else (tolower c1 - tolower c2)%Z
  end.

(** Modelled from the spec: [_cupsStrAlloc], of the string pool, which is
    not part of this file.  The spec has the store keep "copies of name
    and value": the copy of a string is the string. *)
Definition _cupsStrAlloc (s : list ascii) : list ascii := cstring s.

(** A literal of the C source. *)
Definition lit (s : string) : list ascii := list_ascii_of_string s.

(** ** The option store *)

(** [cups_option_t]: [char *name; char *value;]. *)
Module cups_option.
Record t : Type := make { name : list ascii; value : list ascii }.
End cups_option.
Abbreviation cups_option_t := cups_option.t.

(** The store a caller holds: the count it passes as [num_options] and
    the block behind [*options]. *)
Definition store : Type := (Z * option (list cups_option_t))%type.

(** The entries of the store: the first [num_options] slots. *)
Definition entries (num_options : Z) (array : list cups_option_t) : list cups_option_t :=
  take (Z.to_nat num_options) array.

Definition store_entries (s : store) : list cups_option_t :=
  match s.2 with
  | Some array => entries s.1 array
  | None => []
  end.

(** [for (i = 0, temp = *options; i < num_options; i ++, temp ++)
      if (!strcasecmp(temp->name, name)) break;]
    [temp] is the part of the block from the slot [temp] points to. *)
Fixpoint add_loop (name : list ascii) (i num_options : Z)
    (temp : list cups_option_t) {struct temp} : outcome Z :=
  if (i <? num_options)%Z then
    match temp with
    | [] => Undefined
    | o :: temp' =>
        if (strcasecmp (cups_option.name o) name =? 0)%Z then Done i
        else add_loop name (i + 1)%Z num_options temp'
    end
  else Done i.

(** [cupsAddOption].  [alloc_ok] tells whether the [malloc] or [realloc]
    the call may issue succeeds. *)
Definition cupsAddOption (alloc_ok : bool) (name value : option (list ascii))
    (num_options : Z) (options : option (list cups_option_t)) : outcome store :=
  match name, value, options with
  | Some name, Some value, Some array =>
      if Ascii.eqb (hd NUL name) NUL || (num_options <? 0)%Z
      then Done (num_options, options)
      else
        i ← add_loop name 0 num_options array;
        if (num_options <=? i)%Z then
          (* No matching option name... *)
          temp ←
            (if (num_options =? 0)%Z then Done []                (* malloc *)
             else
               (* realloc, of the size of num_options + 1 entries: the sum
                  is computed before the call *)
               if (num_options =? INT_MAX)%Z then Undefined
               else Done (take (Z.to_nat num_options) array));
          if negb alloc_ok then Done (0%Z, options)              (* temp == NULL *)
          else Done ((num_options + 1)%Z,
                     Some (temp ++ [cups_option.make (_cupsStrAlloc name)
                                                     (_cupsStrAlloc value)]))
        else
          (* Match found; free the old value... *)
          Done (num_options,
                Some (alter (fun temp => cups_option.make (cups_option.name temp)
                                                          (_cupsStrAlloc value))
                            (Z.to_nat i) array))
  | _, _, _ => Done (num_options, options)
  end.

(** [for (i = 0; i < num_options; i ++)
      if (strcasecmp(options[i].name, name) == 0) return (options[i].value);]
    [at_i] is the block from the slot [options[i]] on. *)
Fixpoint get_loop (name : list ascii) (i num_options : Z)
    (at_i : list cups_option_t) {struct at_i} : outcome (option (list ascii)) :=
  if (i <? num_options)%Z then
    match at_i with
    | [] => Undefined
    | o :: rest =>
        if (strcasecmp (cups_option.name o) name =? 0)%Z
        then Done (Some (cups_option.value o))
        else get_loop name (i + 1)%Z num_options rest
    end
  else Done None.

(** [cupsGetOption]: the value, or [None] for the null pointer.  Here
    [options] is the block itself ([cups_option_t *]), [None] when it is
    null. *)
Definition cupsGetOption (name : option (list ascii)) (num_options : Z)
    (options : option (list cups_option_t)) : outcome (option (list ascii)) :=
  match name, options with
  | Some name, Some array =>
      if (num_options <=? 0)%Z then Done None
      else get_loop name 0 num_options array
  | _, _ => Done None
  end.

(** [for (i = num_options, option = *options; i > 0; i --, option ++)
      if (!strcasecmp(name, option->name)) break;]
    [option] counts the slots the pointer has moved; [at_option] is the
    block from there on. *)
Fixpoint remove_loop (name : list ascii) (i : Z) (option : nat)
    (at_option : list cups_option_t) {struct at_option} : outcome (Z * nat) :=
  if (0 <? i)%Z then
    match at_option with
    | [] => Undefined
    | o :: rest =>
        if (strcasecmp name (cups_option.name o) =? 0)%Z then Done (i, option)
        else remove_loop name (i - 1)%Z (S option) rest
    end
  else Done (i, option).

(** [memmove(array + dst, array + src, n * sizeof(cups_option_t))]. *)
Definition memmove (array : list cups_option_t) (dst src n : nat)
  : outcome (list cups_option_t) :=
  if (length array <? src + n) || (length array <? dst + n) then Undefined
  else Done (take dst array ++ take n (drop src array) ++ drop (dst + n) array).

(** [cupsRemoveOption]. *)
Definition cupsRemoveOption (name : option (list ascii)) (num_options : Z)
    (options : option (list cups_option_t)) : outcome store :=
  match name, options with
  | Some name, Some array =>
      if (num_options <? 1)%Z then Done (num_options, options)
      else
        '(i, option) ← remove_loop name num_options 0 array;
        if (i =? 0)%Z then Done (num_options, options)
        else
          (* Remove this option from the array... *)
          let num_options := (num_options - 1)%Z in
          let i := (i - 1)%Z in
          if (0 <? i)%Z then
            array' ← memmove array option (S option) (Z.to_nat i);
            Done (num_options, Some array')
          else Done (num_options, options)
  | _, _ => Done (num_options, options)
  end.

(** ** The parser *)

(** [copyarg] and the cursor [ptr] into it, as the pair [(before, after)]:
    [before] holds the bytes of the copy below [ptr], terminators written
    in place included, and [after] is the string at [ptr], up to the
    terminator of the copy.  So [*ptr] is the head of [after] ([NUL] at
    its end), [ptr ++] moves that head to the end of [before], and
    [*ptr++ = '\0'] replaces it by [NUL] on the way. *)
Definition buffer : Type := (list ascii * list ascii)%type.

(** [*ptr]. *)
Definition peek (b : buffer) : ascii := hd NUL b.2.

(** A pointer into the copy is its distance from [copyarg]; this is the
    one [ptr] holds. *)
Definition offset (b : buffer) : nat := length b.1.

(** The bytes stored from the pointer [p] on. *)
Definition bytes_at (b : buffer) (p : nat) : list ascii := drop p (b.1 ++ b.2).

(** [*ptr++ = '\0';] *)
Definition terminate (b : buffer) : buffer := (b.1 ++ [NUL], tl b.2).

(** [ptr ++;] *)
Definition advance (b : buffer) : buffer :=
  match b.2 with
  | [] => b
  | c :: s => (b.1 ++ [c], s)
  end.

(** [while (isspace( *ptr & 255)) ptr ++;] *)
Fixpoint leading_spaces (before after : list ascii) : buffer :=
  match after with
  | [] => (before, after)
  | c :: s => if isspace c then leading_spaces (before ++ [c]) s
              else (before, after)
  end.

(** [while (!isspace( *ptr & 255) && *ptr != '=' && *ptr) ptr ++;] *)
Fixpoint name_loop (before after : list ascii) : buffer :=
  match after with
  | [] => (before, after)
  | c :: s =>
      if negb (isspace c) && negb (Ascii.eqb c "=") && negb (Ascii.eqb c NUL)
      then name_loop (before ++ [c]) s
      else (before, after)
  end.

(** [while (isspace( *ptr & 255)) *ptr++ = '\0';] *)
Fixpoint space_loop (before after : list ascii) : buffer :=
  match after with
  | [] => (before, after)
  | c :: s => if isspace c then space_loop (before ++ [NUL]) s
              else (before, after)
  end.

(** Modelled from the spec: [_cups_strcpy], of the string routines, which
    are not part of this file.  The parser only calls it as
    [_cups_strcpy(ptr, ptr + 1)], to drop a backslash: the spec has it
    that "a backslash immediately followed by any character collapses to
    that single character (escape removed, both source positions shifted
    left by one)".  The string at [ptr + 1] is moved to [ptr], its
    terminator included: given the string at [ptr], this is the string at
    [ptr] after the call. *)
Definition _cups_strcpy (at_ptr : list ascii) : list ascii := tl at_ptr.

(** The loop of a quoted value:
    [while ( *ptr != quote && *ptr)
     { if ( *ptr == '\\' && ptr[1]) _cups_strcpy(ptr, ptr + 1);  ptr ++; }] *)
Fixpoint quoted_loop (quote : ascii) (before after : list ascii) : buffer :=
  match after with
  | [] => (before, after)
  | c :: s =>
      if negb (Ascii.eqb c quote) && negb (Ascii.eqb c NUL) then
        if Ascii.eqb c backslash && negb (Ascii.eqb (hd NUL s) NUL) then
          match _cups_strcpy (c :: s) with
          | c1 :: s1 => quoted_loop quote (before ++ [c1]) s1    (* ptr ++ *)
          | [] => (before, [])
          end
        else quoted_loop quote (before ++ [c]) s                 (* ptr ++ *)
      else (before, after)
  end.

(** The loop of a collection value, entered with [depth = 1] and [ptr] on
    the opening brace:
    [for (depth = 1; *ptr; ptr ++)
       if ( *ptr == '{') depth ++;
       else if ( *ptr == '}')
       { depth --;  if (!depth) { ptr ++;  if ( *ptr != ',') break; } }
       else if ( *ptr == '\\' && ptr[1]) _cups_strcpy(ptr, ptr + 1);] *)
Fixpoint collection_loop (depth : Z) (before after : list ascii)
  : outcome buffer :=
  match after with
  | [] => Done (before, after)
  | c :: s =>
      if Ascii.eqb c NUL then Done (before, after)
      else if Ascii.eqb c "{" then
        if (depth =? INT_MAX)%Z then Undefined
        else collection_loop (depth + 1)%Z (before ++ [c]) s
      else if Ascii.eqb c "}" then
        if (depth =? INT_MIN)%Z then Undefined
        else
          let depth := (depth - 1)%Z in
          if (depth =? 0)%Z then
            (* ptr ++; *)
            if negb (Ascii.eqb (hd NUL s) ",") then Done (before ++ [c], s)  (* break *)
            else
              (* the ptr ++ of the for steps over the comma *)
              match s with
              | c1 :: s1 => collection_loop depth (before ++ [c; c1]) s1
              | [] => Done (before ++ [c], s)
              end
          else collection_loop depth (before ++ [c]) s
      else if Ascii.eqb c backslash && negb (Ascii.eqb (hd NUL s) NUL) then
        match _cups_strcpy (c :: s) with
        | c1 :: s1 => collection_loop depth (before ++ [c1]) s1
        | [] => Done (before, [])
        end
      else collection_loop depth (before ++ [c]) s
  end.

(** The loop of a space-delimited value:
    [while (!isspace( *ptr & 255) && *ptr)
     { if ( *ptr == '\\' && ptr[1]) _cups_strcpy(ptr, ptr + 1);  ptr ++; }] *)
Fixpoint bare_loop (before after : list ascii) : buffer :=
  match after with
  | [] => (before, after)
  | c :: s =>
      if negb (isspace c) && negb (Ascii.eqb c NUL) then
        if Ascii.eqb c backslash && negb (Ascii.eqb (hd NUL s) NUL) then
          match _cups_strcpy (c :: s) with
          | c1 :: s1 => bare_loop (before ++ [c1]) s1            (* ptr ++ *)
          | [] => (before, [])
          end
        else bare_loop (before ++ [c]) s                         (* ptr ++ *)
      else (before, after)
  end.

(** [if ( *ptr != '\0') *ptr++ = '\0';] *)
Definition close_value (b : buffer) : buffer :=
  if negb (Ascii.eqb (peek b) NUL) then terminate b else b.

(** The value of a pair, [ptr] being just behind the [=]: the pointer
    [value] and the cursor behind the value. *)
Definition parse_value (b : buffer) : outcome (nat * buffer) :=
  if Ascii.eqb (peek b) squote || Ascii.eqb (peek b) dquote then
    (* Quoted string constant... *)
    let quote := peek b in
    let b := advance b in
    let value := offset b in
    let b := quoted_loop quote b.1 b.2 in
    Done (value, close_value b)
  else if Ascii.eqb (peek b) "{" then
    (* Collection value... *)
    let value := offset b in
    b ← collection_loop 1 b.1 b.2;
    Done (value, close_value b)
  else
    (* Normal space-delimited string... *)
    let value := offset b in
    Done (value, bare_loop b.1 b.2).

(** How a round of the main loop ends: it goes on with the next round
    ([continue], or the end of the body), or the loop is left ([break], or
    [*ptr] is the terminator). *)
Inductive flow : Type :=
  | Next (b : buffer) (s : store)
  | Leave (s : store).

(** One round of the main loop, [while ( *ptr != '\0') { ... }].
    [alloc_ok] is the one of the call of [cupsAddOption] the round makes. *)
Definition parse_round (alloc_ok : bool) (b : buffer) (num_options : Z)
    (options : option (list cups_option_t)) : outcome flow :=
  if Ascii.eqb (peek b) NUL then Done (Leave (num_options, options))
  else
    (* Get the name up to a SPACE, =, or end-of-string... *)
    let name := offset b in
    let b := name_loop b.1 b.2 in
    (* Avoid an empty name... *)
    if (offset b =? name)%nat then Done (Leave (num_options, options))
    else
      (* Skip trailing spaces... *)
      let b := space_loop b.1 b.2 in
      if negb (Ascii.eqb (peek b) "=") then
        (* Boolean option... *)
        s ← (if (strncasecmp (bytes_at b name) (lit "no") 2 =? 0)%Z
             then cupsAddOption alloc_ok (Some (bytes_at b (name + 2)))
                                (Some (lit "false")) num_options options
             else cupsAddOption alloc_ok (Some (bytes_at b name))
                                (Some (lit "true")) num_options options);
        Done (Next b s)
      else
        (* Remove = and parse the value... *)
        let b := terminate b in
        '(value, b) ← parse_value b;
        (* Skip trailing whitespace... *)
        let b := space_loop b.1 b.2 in
        (* Add the string value... *)
        s ← cupsAddOption alloc_ok (Some (bytes_at b name))
                          (Some (bytes_at b value)) num_options options;
        Done (Next b s).

(** The main loop.  [allocs] lists which of the calls of [cupsAddOption]
    find memory, in order (all those behind its end do); [fuel] bounds the
    number of rounds. *)
Fixpoint parse_loop (fuel : nat) (allocs : list bool) (b : buffer)
    (num_options : Z) (options : option (list cups_option_t)) {struct fuel}
  : outcome store :=
  match fuel with
  | O => Exhausted
  | S fuel =>
      f ← parse_round (hd true allocs) b num_options options;
      match f with
      | Next b s => parse_loop fuel (tl allocs) b s.1 s.2
      | Leave s => Done s
      end
  end.

(** The main loop from the cursor [b] on.  Every round moves [ptr]
    forward, so the length of the string at [ptr] bounds their number
    (lemmas [parse_loop_fuel] and [parse_loop_terminates]). *)
Definition parse_from (allocs : list bool) (b : buffer) (num_options : Z)
    (options : option (list cups_option_t)) : outcome store :=
  parse_loop (S (length b.2)) allocs b num_options options.

(** [cupsParseOptions].  [strdup_ok] tells whether [strdup] finds memory. *)
Definition cupsParseOptions (strdup_ok : bool) (allocs : list bool)
    (arg : option (list ascii)) (num_options : Z)
    (options : option (list cups_option_t)) : outcome store :=
  match arg with
  | None => Done (num_options, options)
  | Some arg =>
      if bool_decide (options = None) || (num_options <? 0)%Z
      then Done (0%Z, options)
      else if negb strdup_ok then Done (num_options, options)
      else
        let copyarg := cstring arg in
        (* Skip leading spaces... *)
        let b := leading_spaces [] copyarg in
        parse_loop (S (length copyarg)) allocs b num_options options
  end.

(** * The vocabulary of the properties *)

(** A string with no terminator inside. *)
Definition no_nul (s : list ascii) : Prop := Forall (fun c => c ≠ NUL) s.

(** The entry [o] bears the name [name], letter case apart. *)
Definition same_name (name : list ascii) (o : cups_option_t) : Prop :=
  strcasecmp (cups_option.name o) name = 0%Z.

#[export] Instance same_name_dec name o : Decision (same_name name o).
Proof. unfold same_name. apply _. Defined.

(** Entry names are pairwise distinct, letter case apart. *)
Definition names_distinct (l : list cups_option_t) : Prop :=
  ∀ i j oi oj, l !! i = Some oi → l !! j = Some oj →
    strcasecmp (cups_option.name oi) (cups_option.name oj) = 0%Z → i = j.

(** A store in good order: the block is there and has the slots the
    count tells, and its entries bear distinct names. *)
Definition store_ok (s : store) : Prop :=
  ∃ array, s.2 = Some array ∧ (0 ≤ s.1)%Z ∧ Z.to_nat s.1 ≤ length array ∧
           names_distinct (entries s.1 array).

(** A byte of a name: neither white space, nor [=], nor the terminator. *)
Definition name_char (c : ascii) : bool :=
  negb (isspace c) && negb (Ascii.eqb c "=") && negb (Ascii.eqb c NUL).

(** The name bears the prefix [no], in either letter case. *)
Definition no_prefix (name : list ascii) : bool :=
  match name with
  | c1 :: c2 :: _ =>
      (Ascii.eqb c1 "n" || Ascii.eqb c1 "N") && (Ascii.eqb c2 "o" || Ascii.eqb c2 "O")
  | _ => false
  end.

(** The text of a quoted value, as the spec words it: "a backslash
    immediately followed by any character collapses to that single
    character". *)
Fixpoint unescape (s : list ascii) : list ascii :=
  match s with
  | [] => []
  | c :: s' =>
      if Ascii.eqb c backslash then
        match s' with
        | c1 :: s1 => c1 :: unescape s1
        | [] => [c]
        end
      else c :: unescape s'
  end.

(** The text holds no terminator and no quote but behind a backslash. *)
Fixpoint quote_free (quote : ascii) (s : list ascii) : bool :=
  match s with
  | [] => true
  | c :: s' =>
      if Ascii.eqb c NUL then false
      else if Ascii.eqb c backslash then
        match s' with
        | c1 :: s1 => negb (Ascii.eqb c1 NUL) && quote_free quote s1
        | [] => true
        end
      else negb (Ascii.eqb c quote) && quote_free quote s'
  end.

(** The text ends in a backslash with nothing to escape: it would escape
    a quote put behind it. *)
Fixpoint dangling (s : list ascii) : bool :=
  match s with
  | [] => false
  | c :: s' =>
      if Ascii.eqb c backslash then
        match s' with
        | _ :: s1 => dangling s1
        | [] => true
        end
      else dangling s'
  end.

(** Bytes that mean nothing to the loop of a collection value. *)
Definition plain (c : ascii) : bool :=
  negb (Ascii.eqb c NUL) && negb (Ascii.eqb c "{") && negb (Ascii.eqb c "}")
  && negb (Ascii.eqb c backslash).

(** The call comes to an end within the loop budget. *)
Definition returns {A} (r : outcome A) : bool :=
  match r with
  | Exhausted => false
  | _ => true
  end.

(** The text holds no terminator and no white space but behind a
    backslash. *)
Fixpoint space_free (s : list ascii) : bool :=
  match s with
  | [] => true
  | c :: s' =>
      if Ascii.eqb c NUL then false
      else if Ascii.eqb c backslash then
        match s' with
        | c1 :: s1 => negb (Ascii.eqb c1 NUL) && space_free s1
        | [] => true
        end
      else negb (isspace c) && space_free s'
  end.

(** The byte opens a quoted value or a collection value. *)
Definition opens_value (c : ascii) : bool :=
  Ascii.eqb c squote || Ascii.eqb c dquote || Ascii.eqb c "{".

(** The value of the first entry that bears the name, letter case
    apart: what a look-up in the entries is to give. *)
Fixpoint find_value (name : list ascii) (l : list cups_option_t)
  : option (list ascii) :=
  match l with
  | [] => None
  | o :: l' =>
      if decide (same_name name o) then Some (cups_option.value o)
      else find_value name l'
  end.

(** The names of the entries, in their order. *)
Definition names (l : list cups_option_t) : list (list ascii) :=
  cups_option.name <$> l.

(** No closing brace stands in the text without an opening one before it,
    [open] opening braces being counted already. *)
Fixpoint balanced (open : nat) (s : list ascii) : bool :=
  match s with
  | [] => true
  | c :: s' =>
      if Ascii.eqb c "{" then balanced (S open) s'
      else if Ascii.eqb c "}" then
        match open with
        | O => false
        | S open' => balanced open' s'
        end
      else balanced open s'
  end.

(** The text holds neither a terminator nor a backslash. *)
Definition literal (s : list ascii) : bool :=
  forallb (fun c => negb (Ascii.eqb c NUL) && negb (Ascii.eqb c backslash)) s.

(** The stores a caller can get to from the empty store. *)
Inductive reachable : store → Prop :=
  | reachable_empty : reachable (0%Z, Some [])
  | reachable_add alloc_ok name value s s' :
      reachable s →
      cupsAddOption alloc_ok name value s.1 s.2 = Done s' → reachable s'
  | reachable_remove name s s' :
      reachable s →
      cupsRemoveOption name s.1 s.2 = Done s' → reachable s'
  | reachable_parse strdup_ok allocs arg s s' :
      reachable s →
      cupsParseOptions strdup_ok allocs arg s.1 s.2 = Done s' → reachable s'.

(** * Properties *)

(** ** Strings *)

Lemma eqb_NUL_false c : c ≠ NUL → Ascii.eqb c NUL = false.
Proof. intros H. by apply Ascii.eqb_neq. Qed.

Lemma cstring_no_nul s : no_nul (cstring s).
Proof.
  induction s as [|c s IH]; simpl; [constructor|].
  destruct (Ascii.eqb_spec c NUL); [constructor|]. by constructor.
Qed.

Lemma cstring_id s : no_nul s → cstring s = s.
Proof.
  induction 1 as [|c s Hc _ IH]; simpl; [done|].
  by rewrite eqb_NUL_false, IH.
Qed.

Lemma cstring_idemp s : cstring (cstring s) = cstring s.
Proof. apply cstring_id, cstring_no_nul. Qed.

Lemma cstring_app_nul s t : no_nul s → cstring (s ++ NUL :: t) = s.
Proof.
  induction 1 as [|c s Hc _ IH]; simpl; [done|].
  by rewrite eqb_NUL_false, IH.
Qed.

Lemma cstring_app s t : no_nul s → cstring (s ++ t) = s ++ cstring t.
Proof.
  induction 1 as [|c s Hc _ IH]; simpl; [done|].
  by rewrite eqb_NUL_false, IH.
Qed.

Lemma hd_cstring s : hd NUL (cstring s) = hd NUL s.
Proof.
  destruct s as [|c s]; simpl; [done|].
  by destruct (Ascii.eqb_spec c NUL) as [->|].
Qed.

Lemma tolower_NUL : tolower NUL = 0%Z.
Proof. reflexivity. Qed.

Lemma code_inj c1 c2 : code c1 = code c2 → c1 = c2.
Proof.
  unfold code. intros H. apply N2Z.inj in H.
  by rewrite <- (ascii_N_embedding c1), <- (ascii_N_embedding c2), H.
Qed.

Lemma tolower_0 c : tolower c = 0%Z → c = NUL.
Proof.
  unfold tolower. intros H. apply code_inj.
  assert (0 ≤ code c)%Z by (unfold code; lia).
  destruct (_ && _)%Z eqn:E; [|done]. lia.
Qed.

Lemma strcasecmp_cstring_r s t : strcasecmp s (cstring t) = strcasecmp s t.
Proof.
  revert t. induction s as [|c s IH]; intros [|d t]; simpl; try done.
  - destruct (Ascii.eqb_spec d NUL) as [->|]; by simpl.
  - destruct (Ascii.eqb_spec d NUL) as [->|Hd]; simpl.
    + rewrite tolower_NUL. destruct (Z.eqb_spec (tolower c) 0) as [E|E].
      * apply tolower_0 in E as ->. reflexivity.
      * lia.
    + rewrite IH. reflexivity.
Qed.

Lemma strcasecmp_sym s t : strcasecmp s t = (- strcasecmp t s)%Z.
Proof.
  revert t. induction s as [|c s IH]; intros [|d t]; simpl; try lia.
  rewrite (Z.eqb_sym (tolower d)).
  destruct (Z.eqb_spec (tolower c) (tolower d)) as [E|E]; [|lia].
  destruct (Ascii.eqb_spec c NUL) as [->|Hc].
  - rewrite tolower_NUL in E. symmetry in E. apply tolower_0 in E as ->. done.
  - destruct (Ascii.eqb_spec d NUL) as [->|Hd]; [|apply IH].
    rewrite tolower_NUL in E. by apply tolower_0 in E.
Qed.

Lemma strcasecmp_cstring_l s t : strcasecmp (cstring s) t = strcasecmp s t.
Proof.
  by rewrite strcasecmp_sym, strcasecmp_cstring_r, <- strcasecmp_sym.
Qed.

Lemma strcasecmp_sym_0 s t : strcasecmp s t = 0%Z → strcasecmp t s = 0%Z.
Proof. rewrite (strcasecmp_sym t s). lia. Qed.

Lemma strcasecmp_refl s : strcasecmp s s = 0%Z.
Proof.
  induction s as [|c s IH]; simpl; [done|].
  rewrite Z.eqb_refl. by destruct (Ascii.eqb c NUL).
Qed.

(** ** The store: [cupsAddOption] *)

Lemma add_loop_eq name i n temp :
  add_loop name i n temp =
  if (i <? n)%Z then
    match temp with
    | [] => Undefined
    | o :: temp' =>
        if (strcasecmp (cups_option.name o) name =? 0)%Z then Done i
        else add_loop name (i + 1)%Z n temp'
    end
  else Done i.
Proof. by destruct temp. Qed.

Lemma add_loop_found name i n l1 o l2 :
  Forall (fun o' => ¬ same_name name o') l1 → same_name name o →
  (i + Z.of_nat (length l1) < n)%Z →
  add_loop name i n (l1 ++ o :: l2) = Done (i + Z.of_nat (length l1))%Z.
Proof.
  intros Hl1 Ho. revert i.
  induction Hl1 as [|o' l1 Ho' _ IH]; intros i Hi; rewrite add_loop_eq; simpl in *.
  - destruct (Z.ltb_spec i n); [|lia].
    unfold same_name in Ho. rewrite Ho. simpl. f_equal. lia.
  - destruct (Z.ltb_spec i n); [|lia].
    unfold same_name in Ho'. destruct (Z.eqb_spec (strcasecmp (cups_option.name o') name) 0); [done|].
    rewrite IH by lia. f_equal. lia.
Qed.

Lemma add_loop_none name i n temp :
  (i ≤ n)%Z → Z.to_nat (n - i) ≤ length temp →
  Forall (fun o => ¬ same_name name o) (take (Z.to_nat (n - i)) temp) →
  add_loop name i n temp = Done n.
Proof.
  revert i. induction temp as [|o temp IH]; intros i Hi Hlen Hall;
    rewrite add_loop_eq; simpl in *.
  - destruct (Z.ltb_spec i n); [lia|]. f_equal. lia.
  - destruct (Z.ltb_spec i n); [|f_equal; lia].
    destruct (Z.to_nat (n - i)) as [|k] eqn:Ek; [lia|]. simpl in Hall.
    apply Forall_cons in Hall as [Ho Hall]. unfold same_name in Ho.
    destruct (Z.eqb_spec (strcasecmp (cups_option.name o) name) 0); [done|].
    apply IH; [lia|lia|]. by replace (Z.to_nat (n - (i + 1))) with k by lia.
Qed.

Lemma add_loop_Done name i n temp j :
  add_loop name i n temp = Done j →
  (i ≤ j)%Z ∧
  Forall (fun o => ¬ same_name name o) (take (Z.to_nat (j - i)) temp) ∧
  Z.to_nat (j - i) ≤ length temp ∧
  ((j < n)%Z → ∃ o, temp !! Z.to_nat (j - i) = Some o ∧ same_name name o) ∧
  ((n ≤ j)%Z → j = Z.max i n).
Proof.
  revert i. induction temp as [|o temp IH]; intros i; rewrite add_loop_eq.
  - destruct (Z.ltb_spec i n); [done|]. intros [= <-].
    rewrite Z.sub_diag. simpl. repeat split; try done; try lia.
  - destruct (Z.ltb_spec i n) as [Hi|Hi].
    + destruct (Z.eqb_spec (strcasecmp (cups_option.name o) name) 0) as [E|E].
      * intros [= <-]. rewrite Z.sub_diag. simpl.
        repeat split; try done; try lia. intros _. by exists o.
      * intros H. apply IH in H as (Hj & Hall & Hlen & Hlt & Hge).
        replace (Z.to_nat (j - i)) with (S (Z.to_nat (j - (i + 1)))) by lia.
        simpl. repeat split; try lia; try done.
        by constructor.
    + intros [= <-]. rewrite Z.sub_diag. simpl.
      repeat split; try done; try lia.
Qed.

Lemma entries_length n array :
  Z.to_nat n ≤ length array → length (entries n array) = Z.to_nat n.
Proof. unfold entries. rewrite length_take. lia. Qed.

Lemma entries_split n array l :
  entries n array = l → array = l ++ drop (Z.to_nat n) array.
Proof. unfold entries. intros <-. by rewrite take_drop. Qed.

Lemma cupsAddOption_invalid alloc_ok name value n options :
  name = None ∨ value = None ∨ options = None ∨ (n < 0)%Z →
  cupsAddOption alloc_ok name value n options = Done (n, options).
Proof.
  intros H. unfold cupsAddOption.
  destruct name as [name|], value as [value|], options as [array|]; try done.
  destruct H as [|[|[|H]]]; try done.
  destruct (Z.ltb_spec n 0); [|lia]. by rewrite orb_true_r.
Qed.

Lemma cupsAddOption_empty_name alloc_ok name value n options :
  hd NUL name = NUL →
  cupsAddOption alloc_ok (Some name) value n options = Done (n, options).
Proof.
  intros H. unfold cupsAddOption.
  destruct value as [value|], options as [array|]; try done.
  by rewrite H.
Qed.

Lemma cupsAddOption_replace alloc_ok name value n array l1 o l2 :
  hd NUL name ≠ NUL →
  entries n array = l1 ++ o :: l2 →
  Forall (fun o' => ¬ same_name name o') l1 → same_name name o →
  cupsAddOption alloc_ok (Some name) (Some value) n (Some array) =
  Done (n, Some (<[length l1 := cups_option.make (cups_option.name o) (cstring value)]> array)).
Proof.
  intros Hname Hent Hl1 Ho. unfold cupsAddOption.
  rewrite (eqb_NUL_false _ Hname). simpl.
  assert (Hn : length l1 < Z.to_nat n).
  { assert (length (entries n array) ≤ Z.to_nat n) by (unfold entries; rewrite length_take; lia).
    rewrite Hent, length_app in H. simpl in H. lia. }
  destruct (Z.ltb_spec n 0); [lia|]. simpl.
  rewrite (entries_split _ _ _ Hent), <- !app_assoc. simpl.
  rewrite add_loop_found by (done || lia). simpl.
  destruct (Z.leb_spec n (0 + Z.of_nat (length l1))); [lia|].
  do 3 f_equal. replace (Z.to_nat (0 + Z.of_nat (length l1))) with (length l1 + 0) by lia.
  rewrite alter_app_r, insert_app_r_alt, Nat.sub_diag by done. reflexivity.
Qed.

Lemma grown_block n (array : list cups_option_t) :
  (if (n =? 0)%Z then Done []
   else if (n =? INT_MAX)%Z then Undefined
   else Done (take (Z.to_nat n) array)) =
  if (n =? INT_MAX)%Z then Undefined else Done (entries n array).
Proof. by destruct (Z.eqb_spec n 0) as [->|]. Qed.

Lemma cupsAddOption_fresh alloc_ok name value n array :
  hd NUL name ≠ NUL → (0 ≤ n)%Z → Z.to_nat n ≤ length array →
  Forall (fun o => ¬ same_name name o) (entries n array) →
  cupsAddOption alloc_ok (Some name) (Some value) n (Some array) =
  if (n =? INT_MAX)%Z then Undefined
  else if alloc_ok then
    Done ((n + 1)%Z,
          Some (entries n array ++ [cups_option.make (cstring name) (cstring value)]))
  else Done (0%Z, Some array).
Proof.
  intros Hname Hn Hlen Hall. unfold cupsAddOption.
  rewrite (eqb_NUL_false _ Hname). simpl.
  destruct (Z.ltb_spec n 0); [lia|]. simpl.
  rewrite add_loop_none by (rewrite ?Z.sub_0_r; done). simpl.
  rewrite Z.leb_refl, grown_block.
  destruct (n =? INT_MAX)%Z; [done|]. by destruct alloc_ok.
Qed.

(** What a call that returns has done to the store. *)
Lemma cupsAddOption_cases alloc_ok name value n options s :
  cupsAddOption alloc_ok name value n options = Done s →
  s = (n, options) ∨
  (∃ array, options = Some array ∧ (0 ≤ n)%Z ∧ s = (0%Z, options)) ∨
  (∃ array nm v, options = Some array ∧ name = Some nm ∧ (0 ≤ n)%Z ∧
     Z.to_nat n ≤ length array ∧
     Forall (fun o => ¬ same_name nm o) (entries n array) ∧
     s = ((n + 1)%Z, Some (entries n array ++ [cups_option.make (cstring nm) v]))) ∨
  (∃ array i v o, options = Some array ∧ i < Z.to_nat n ∧ array !! i = Some o ∧
     s = (n, Some (<[i := cups_option.make (cups_option.name o) v]> array))).
Proof.
  unfold cupsAddOption.
  destruct name as [name|], value as [value|], options as [array|];
    try (intros [= <-]; by left).
  destruct (Ascii.eqb (hd NUL name) NUL); simpl; [intros [= <-]; by left|].
  destruct (Z.ltb_spec n 0); simpl; [intros [= <-]; by left|].
  destruct (add_loop name 0 n array) as [i| |] eqn:Hloop; simpl; try done.
  apply add_loop_Done in Hloop as (Hi & Hall & Hlen & Hlt & Hge).
  rewrite Z.sub_0_r in *.
  destruct (Z.leb_spec n i) as [Hni|Hni].
  - specialize (Hge Hni). assert (i = n) as -> by lia.
    rewrite grown_block. destruct (n =? INT_MAX)%Z; [done|].
    destruct alloc_ok; simpl.
    + intros [= <-].
      right; right; left. exists array, name, (cstring value).
      repeat split; done.
    + intros [= <-]. right; left. by exists array.
  - intros [= <-]. destruct (Hlt Hni) as (o & Ho & _).
    right; right; right. exists array, (Z.to_nat i), (cstring value), o.
    repeat split; try done; try lia.
    do 2 f_equal. apply list_eq. intros k.
    rewrite list_lookup_alter, list_lookup_insert.
    destruct (decide (Z.to_nat i = k)) as [<-|]; [|by rewrite ?decide_False by lia].
    rewrite Ho. simpl. apply lookup_lt_Some in Ho. by rewrite decide_True by lia.
Qed.

(** ** The invariant of the store *)

Lemma names_distinct_nil : names_distinct [].
Proof. by intros i j oi oj H. Qed.

Lemma names_distinct_fmap l l' :
  cups_option.name <$> l = cups_option.name <$> l' →
  names_distinct l → names_distinct l'.
Proof.
  intros E H i j oi oj Hi Hj Hs.
  assert (∀ k o, l' !! k = Some o →
            ∃ o', l !! k = Some o' ∧ cups_option.name o' = cups_option.name o) as Hinv.
  { intros k o Hk. apply (f_equal (fmap cups_option.name)) in Hk.
    rewrite <- list_lookup_fmap, <- E, list_lookup_fmap in Hk.
    destruct (l !! k) as [o'|]; [|done]. exists o'. by injection Hk as ->. }
  destruct (Hinv _ _ Hi) as (oi' & Hi' & Ei), (Hinv _ _ Hj) as (oj' & Hj' & Ej).
  apply (H i j oi' oj' Hi' Hj'). by rewrite Ei, Ej.
Qed.

Lemma names_distinct_snoc l o :
  names_distinct l → Forall (fun o' => ¬ same_name (cups_option.name o) o') l →
  names_distinct (l ++ [o]).
Proof.
  intros Hl Hall i j oi oj Hi Hj Hs.
  rewrite Forall_lookup in Hall.
  apply lookup_snoc_Some in Hi as [[Hi Hli]|[-> <-]];
    apply lookup_snoc_Some in Hj as [[Hj Hlj]|[-> <-]]; try done.
  - by apply (Hl i j oi oj).
  - by destruct (Hall _ _ Hli).
  - apply strcasecmp_sym_0 in Hs. by destruct (Hall _ _ Hlj).
Qed.

Lemma names_distinct_delete l1 o l2 :
  names_distinct (l1 ++ o :: l2) → names_distinct (l1 ++ l2).
Proof.
  intros H i j oi oj Hi Hj Hs.
  assert (∀ k x, (l1 ++ l2) !! k = Some x →
            (l1 ++ o :: l2) !! (if decide (k < length l1) then k else S k) = Some x) as Hup.
  { intros k x Hk. case_decide.
    - rewrite lookup_app_l in Hk |- * by done. done.
    - rewrite lookup_app_r in Hk |- * by lia.
      by replace (S k - length l1) with (S (k - length l1)) by lia. }
  pose proof (H _ _ _ _ (Hup _ _ Hi) (Hup _ _ Hj) Hs) as E.
  repeat case_decide; lia.
Qed.

Lemma cupsAddOption_ok alloc_ok name value n options s :
  store_ok (n, options) →
  cupsAddOption alloc_ok name value n options = Done s → store_ok s.
Proof.
  intros (array & Harr & Hn & Hlen & Hdist) Hadd. simpl in *. subst options.
  apply cupsAddOption_cases in Hadd
    as [->|[(a & [= <-] & _ & ->)|[(a & nm & v & [= <-] & -> & _ & _ & Hall & ->)
                                  |(a & i & v & o & [= <-] & Hi & Ho & ->)]]].
  - by exists array.
  - exists array. repeat split; simpl; try done; try lia.
  - eexists. split; [done|]. simpl.
    assert (length (entries n array) = Z.to_nat n) as Hl by by apply entries_length.
    repeat split; try lia.
    + rewrite length_app. simpl. lia.
    + unfold entries at 1. rewrite take_ge by (rewrite length_app; simpl; lia).
      apply names_distinct_snoc; [done|]. simpl.
      eapply Forall_impl; [exact Hall|]. intros o Ho Hs. apply Ho.
      unfold same_name in *. by rewrite strcasecmp_cstring_r in Hs.
  - eexists. split; [done|]. simpl. rewrite length_insert.
    repeat split; try done.
    unfold entries. rewrite take_insert_lt by done.
    eapply names_distinct_fmap; [|exact Hdist].
    rewrite list_fmap_insert. simpl. symmetry. apply list_insert_id.
    rewrite list_lookup_fmap. unfold entries. rewrite lookup_take_lt by done. by rewrite Ho.
Qed.

(** ** The store: [cupsRemoveOption] *)

Lemma remove_loop_eq name i option at_option :
  remove_loop name i option at_option =
  if (0 <? i)%Z then
    match at_option with
    | [] => Undefined
    | o :: rest =>
        if (strcasecmp name (cups_option.name o) =? 0)%Z then Done (i, option)
        else remove_loop name (i - 1)%Z (S option) rest
    end
  else Done (i, option).
Proof. by destruct at_option. Qed.

Lemma same_name_eqb name o :
  (strcasecmp name (cups_option.name o) =? 0)%Z = bool_decide (same_name name o).
Proof.
  unfold same_name. rewrite (strcasecmp_sym name).
  destruct (Z.eqb_spec (- strcasecmp (cups_option.name o) name) 0);
    [rewrite bool_decide_eq_true_2|rewrite bool_decide_eq_false_2]; lia.
Qed.

Lemma remove_loop_found name i option l1 o l2 :
  Forall (fun o' => ¬ same_name name o') l1 → same_name name o →
  (Z.of_nat (length l1) < i)%Z →
  remove_loop name i option (l1 ++ o :: l2) =
  Done ((i - Z.of_nat (length l1))%Z, option + length l1).
Proof.
  intros Hl1 Ho. revert i option.
  induction Hl1 as [|o' l1 Ho' _ IH]; intros i option Hi;
    rewrite remove_loop_eq; simpl in *.
  - destruct (Z.ltb_spec 0 i); [|lia].
    rewrite same_name_eqb, bool_decide_eq_true_2 by done.
    do 2 f_equal; lia.
  - destruct (Z.ltb_spec 0 i); [|lia].
    rewrite same_name_eqb, bool_decide_eq_false_2 by done.
    rewrite IH by lia. do 2 f_equal; lia.
Qed.

Lemma remove_loop_none name i option at_option :
  (0 ≤ i)%Z → Z.to_nat i ≤ length at_option →
  Forall (fun o => ¬ same_name name o) (take (Z.to_nat i) at_option) →
  remove_loop name i option at_option = Done (0%Z, option + Z.to_nat i).
Proof.
  revert i option.
  induction at_option as [|o rest IH]; intros i option Hi Hlen Hall;
    rewrite remove_loop_eq; simpl in *.
  - destruct (Z.ltb_spec 0 i); [lia|]. do 2 f_equal; lia.
  - destruct (Z.ltb_spec 0 i); [|do 2 f_equal; lia].
    destruct (Z.to_nat i) as [|k] eqn:Ek; [lia|]. simpl in Hall.
    apply Forall_cons in Hall as [Ho Hall].
    rewrite same_name_eqb, bool_decide_eq_false_2 by done.
    rewrite IH; [do 2 f_equal; lia|lia|lia|].
    by replace (Z.to_nat (i - 1)) with k by lia.
Qed.

Lemma cupsRemoveOption_invalid name n options :
  name = None ∨ options = None ∨ (n < 1)%Z →
  cupsRemoveOption name n options = Done (n, options).
Proof.
  intros H. unfold cupsRemoveOption.
  destruct name as [name|], options as [array|]; try done.
  destruct H as [|[|H]]; try done.
  by destruct (Z.ltb_spec n 1); [|lia].
Qed.

Lemma cupsRemoveOption_absent name n array :
  Z.to_nat n ≤ length array →
  Forall (fun o => ¬ same_name name o) (entries n array) →
  cupsRemoveOption (Some name) n (Some array) = Done (n, Some array).
Proof.
  intros Hlen Hall. unfold cupsRemoveOption.
  destruct (Z.ltb_spec n 1); [done|].
  rewrite remove_loop_none by (done || lia). reflexivity.
Qed.

Lemma cupsRemoveOption_found name n array l1 o l2 :
  Z.to_nat n ≤ length array →
  entries n array = l1 ++ o :: l2 →
  Forall (fun o' => ¬ same_name name o') l1 → same_name name o →
  cupsRemoveOption (Some name) n (Some array) =
  Done ((n - 1)%Z, Some (l1 ++ l2 ++ drop (Z.to_nat n - 1) array)).
Proof.
  intros Hlen Hent Hl1 Ho. unfold cupsRemoveOption.
  assert (Hn : length l1 + S (length l2) = Z.to_nat n).
  { rewrite <- (entries_length n array), Hent, length_app by done. done. }
  destruct (Z.ltb_spec n 1); [lia|].
  pose proof (entries_split _ _ _ Hent) as Harr.
  rewrite <- app_assoc in Harr. simpl in Harr.
  rewrite Harr at 1. rewrite remove_loop_found by (done || lia). simpl.
  destruct (Z.eqb_spec (n - Z.of_nat (length l1)) 0); [lia|].
  assert (Hdrop : drop (Z.to_nat n - 1) array = drop (length l2) (o :: l2) ++ drop (Z.to_nat n) array).
  { rewrite Harr at 1. rewrite drop_app_ge by lia.
    replace (Z.to_nat n - 1 - length l1) with (length l2) by lia.
    change (o :: l2 ++ drop (Z.to_nat n) array) with ((o :: l2) ++ drop (Z.to_nat n) array).
    rewrite drop_app_le by (simpl; lia). done. }
  destruct (Z.ltb_spec 0 (n - Z.of_nat (length l1) - 1)) as [Hi|Hi].
  - unfold memmove.
    destruct (Nat.ltb_spec (length array) (S (length l1) + Z.to_nat (n - Z.of_nat (length l1) - 1))); [lia|].
    destruct (Nat.ltb_spec (length array) (length l1 + Z.to_nat (n - Z.of_nat (length l1) - 1))); [lia|].
    simpl. do 3 f_equal.
    replace (Z.to_nat (n - Z.of_nat (length l1) - 1)) with (length l2) by lia.
    rewrite Harr at 1. rewrite take_app_length. f_equal.
    replace (length l1 + length l2) with (Z.to_nat n - 1) by lia. f_equal.
    rewrite Harr at 1.
    change (l1 ++ o :: l2 ++ drop (Z.to_nat n) array)
      with (l1 ++ [o] ++ l2 ++ drop (Z.to_nat n) array).
    rewrite app_assoc, drop_app_length' by (rewrite length_app; simpl; lia).
    by rewrite take_app_length.
  - assert (l2 = []) as -> by (destruct l2; [done|simpl in *; lia]).
    simpl. do 3 f_equal. rewrite Hdrop. exact Harr.
Qed.

(** The first entry that bears the name, if there is one. *)
Lemma first_same_name name (l : list cups_option_t) :
  Forall (fun o => ¬ same_name name o) l ∨
  ∃ l1 o l2, l = l1 ++ o :: l2 ∧
             Forall (fun o' => ¬ same_name name o') l1 ∧ same_name name o.
Proof.
  induction l as [|o l IH]; [left; constructor|].
  destruct (decide (same_name name o)) as [Ho|Ho].
  - right. exists [], o, l. repeat split; [constructor|done].
  - destruct IH as [IH|(l1 & o' & l2 & -> & Hl1 & Ho')].
    + left. by constructor.
    + right. exists (o :: l1), o', l2. repeat split; [by constructor|done].
Qed.

Lemma cupsRemoveOption_ok name n options s :
  store_ok (n, options) →
  cupsRemoveOption name n options = Done s → store_ok s.
Proof.
  intros (array & Harr & Hn & Hlen & Hdist). simpl in *. subst options.
  destruct name as [name|]; [|intros [= <-]; by exists array].
  destruct (first_same_name name (entries n array))
    as [Hall|(l1 & o & l2 & Hent & Hl1 & Ho)].
  - rewrite cupsRemoveOption_absent by done. intros [= <-]. by exists array.
  - rewrite (cupsRemoveOption_found _ _ _ _ _ _ Hlen Hent Hl1 Ho). intros [= <-].
    assert (Hl : length l1 + S (length l2) = Z.to_nat n).
    { rewrite <- (entries_length n array), Hent, length_app by done. done. }
    eexists. split; [done|]. simpl. rewrite !length_app, length_drop.
    repeat split; try lia.
    unfold entries. rewrite app_assoc, take_app_length' by (rewrite length_app; lia).
    eapply names_distinct_delete. by rewrite <- Hent.
Qed.

(** ** The parser: the cursor only moves forward *)

#[global] Arguments cupsAddOption : simpl never.
#[global] Arguments cupsRemoveOption : simpl never.

Lemma leading_spaces_length before after :
  length (leading_spaces before after).2 ≤ length after.
Proof.
  revert before. induction after as [|c s IH]; intros before; simpl; [done|].
  destruct (isspace c); simpl; [|done]. specialize (IH (before ++ [c])). lia.
Qed.

Lemma name_loop_length before after :
  length (name_loop before after).1 + length (name_loop before after).2 =
    length before + length after ∧
  length before ≤ length (name_loop before after).1.
Proof.
  revert before. induction after as [|c s IH]; intros before; simpl; [lia|].
  destruct (_ && _); simpl; [|lia].
  specialize (IH (before ++ [c])). rewrite length_app in IH. simpl in IH. lia.
Qed.

Lemma space_loop_length before after :
  length (space_loop before after).2 ≤ length after.
Proof.
  revert before. induction after as [|c s IH]; intros before; simpl; [done|].
  destruct (isspace c); simpl; [|done]. specialize (IH (before ++ [NUL])). lia.
Qed.

(** Induction over a string two bytes at a time, as the loops that drop
    a backslash go. *)
Lemma list_pair_ind {A} (P : list A → Prop) :
  P [] → (∀ x, P [x]) → (∀ x y l, P l → P (y :: l) → P (x :: y :: l)) →
  ∀ l, P l.
Proof.
  intros Hnil Hone Hstep l.
  enough (P l ∧ ∀ x, P (x :: l)) by tauto.
  induction l as [|y l [IH1 IH2]]; [by split|].
  split; [apply IH2|]. intros x. by apply Hstep.
Qed.

Lemma quoted_loop_length quote before after :
  length (quoted_loop quote before after).2 ≤ length after.
Proof.
  revert before. induction after as [|c| c c1 s IH1 IH2] using list_pair_ind;
    intros before; simpl; [done| |].
  - repeat destruct (_ && _); simpl; lia.
  - destruct (negb (Ascii.eqb c quote) && _); [|simpl; lia].
    destruct (Ascii.eqb c backslash && _).
    + specialize (IH1 (before ++ [c1])). lia.
    + specialize (IH2 (before ++ [c])). simpl in IH2. lia.
Qed.

Lemma bare_loop_length before after :
  length (bare_loop before after).2 ≤ length after.
Proof.
  revert before. induction after as [|c| c c1 s IH1 IH2] using list_pair_ind;
    intros before; simpl; [done| |].
  - repeat destruct (_ && _); simpl; lia.
  - destruct (negb (isspace c) && _); [|simpl; lia].
    destruct (Ascii.eqb c backslash && _).
    + specialize (IH1 (before ++ [c1])). lia.
    + specialize (IH2 (before ++ [c])). simpl in IH2. lia.
Qed.

Lemma collection_loop_length depth before after b :
  collection_loop depth before after = Done b → length b.2 ≤ length after.
Proof.
  revert depth before. induction after as [|c| c c1 s IH1 IH2] using list_pair_ind;
    intros depth before; simpl.
  - by intros [= <-].
  - destruct (Ascii.eqb c NUL); [by intros [= <-]|].
    destruct (Ascii.eqb c "{").
    { destruct (depth =? INT_MAX)%Z; [done|]. intros [= <-]. simpl. lia. }
    destruct (Ascii.eqb c "}").
    { destruct (depth =? INT_MIN)%Z; [done|].
      destruct (depth - 1 =? 0)%Z; intros [= <-]; simpl; lia. }
    destruct (_ && _); intros [= <-]; simpl; lia.
  - destruct (Ascii.eqb c NUL); [by intros [= <-]|].
    destruct (Ascii.eqb c "{").
    { destruct (depth =? INT_MAX)%Z; [done|]. intros H. apply IH2 in H. simpl in H. lia. }
    destruct (Ascii.eqb c "}").
    { destruct (depth =? INT_MIN)%Z; [done|].
      destruct (depth - 1 =? 0)%Z.
      - destruct (negb (Ascii.eqb c1 ",")); [intros [= <-]; simpl; lia|].
        intros H. apply IH1 in H. lia.
      - intros H. apply IH2 in H. simpl in H. lia. }
    destruct (Ascii.eqb c backslash && _); intros H.
    + apply IH1 in H. lia.
    + apply IH2 in H. simpl in H. lia.
Qed.

Lemma close_value_length b : length (close_value b).2 ≤ length b.2.
Proof.
  unfold close_value. destruct (negb _); [|done].
  destruct b as [before [|c s]]; simpl; lia.
Qed.

Lemma parse_value_length b value b' :
  parse_value b = Done (value, b') → length b'.2 ≤ length b.2.
Proof.
  unfold parse_value. destruct (_ || _).
  - intros [= _ <-]. etrans; [apply close_value_length|].
    etrans; [apply quoted_loop_length|].
    unfold advance. destruct b as [before [|c s]]; simpl; lia.
  - destruct (Ascii.eqb (peek b) "{").
    + destruct (collection_loop 1 b.1 b.2) as [b1| |] eqn:E; simpl; try done.
      intros [= _ <-]. etrans; [apply close_value_length|].
      by eapply collection_loop_length.
    + intros [= _ <-]. apply bare_loop_length.
Qed.

(** A round that goes on has moved the cursor and has called
    [cupsAddOption] on the store; a round that leaves the loop has not
    touched the store. *)
Lemma parse_round_Next alloc_ok b n options b' s :
  parse_round alloc_ok b n options = Done (Next b' s) →
  length b'.2 < length b.2 ∧
  ∃ name value, cupsAddOption alloc_ok name value n options = Done s.
Proof.
  unfold parse_round. destruct (Ascii.eqb (peek b) NUL); [done|].
  destruct (Nat.eqb_spec (offset (name_loop b.1 b.2)) (offset b)) as [|Hoff]; [done|].
  pose proof (name_loop_length b.1 b.2) as [Hlen Hle]. unfold offset in Hoff.
  set (b1 := space_loop _ _).
  assert (length b1.2 < length b.2) as Hb1.
  { subst b1. eapply Nat.le_lt_trans; [apply space_loop_length|]. lia. }
  destruct (negb (Ascii.eqb (peek b1) "=")).
  - match goal with |- context [mbind _ ?m] => destruct m as [s1| |] eqn:E end;
      simpl; try done.
    intros [= <- <-]. split; [done|].
    destruct (strncasecmp _ _ _ =? 0)%Z; eauto.
  - destruct (parse_value (terminate b1)) as [[value b2]| |] eqn:Ev; simpl; try done.
    apply parse_value_length in Ev.
    match goal with |- context [mbind _ ?m] => destruct m as [s1| |] eqn:E end;
      simpl; try done.
    intros [= <- <-]. split; [|eauto].
    eapply Nat.le_lt_trans; [apply space_loop_length|].
    eapply Nat.le_lt_trans; [exact Ev|].
    unfold terminate. simpl. destruct b1 as [before [|c s']]; simpl in *; lia.
Qed.

Lemma parse_round_Leave alloc_ok b n options s :
  parse_round alloc_ok b n options = Done (Leave s) → s = (n, options).
Proof.
  unfold parse_round. destruct (Ascii.eqb (peek b) NUL); [by intros [= <-]|].
  destruct (offset _ =? offset b); [by intros [= <-]|].
  destruct (negb _).
  - match goal with |- context [mbind _ ?m] => destruct m as [s1| |] end; done.
  - destruct (parse_value _) as [[value b2]| |]; simpl; try done.
    match goal with |- context [mbind _ ?m] => destruct m as [s1| |] end; done.
Qed.

Lemma parse_round_not_Exhausted alloc_ok b n options :
  parse_round alloc_ok b n options ≠ Exhausted.
Proof.
  assert (∀ ok nm v, cupsAddOption ok nm v n options ≠ Exhausted) as Hadd.
  { intros ok nm v. unfold cupsAddOption.
    destruct nm as [nm|], v as [v|], options as [array|]; try done.
    destruct (_ || _); [done|].
    assert (∀ i temp, add_loop nm i n temp ≠ Exhausted) as Hloop.
    { intros i temp. revert i. induction temp as [|o temp IH]; intros i;
        rewrite add_loop_eq; destruct (i <? n)%Z; try done.
      destruct (_ =? 0)%Z; [done|apply IH]. }
    specialize (Hloop 0%Z array). destruct (add_loop nm 0 n array); simpl; try done.
    destruct (n <=? a)%Z; [|done]. rewrite grown_block.
    destruct (n =? INT_MAX)%Z; [done|]. simpl. by destruct (negb ok). }
  assert (∀ depth before after, collection_loop depth before after ≠ Exhausted) as Hcoll.
  { intros depth before after. revert depth before.
    induction after as [|c| c c1 s IH1 IH2] using list_pair_ind;
      intros depth before; simpl; try done.
    - destruct (Ascii.eqb c NUL); [done|]. destruct (Ascii.eqb c "{").
      { by destruct (depth =? INT_MAX)%Z. }
      destruct (Ascii.eqb c "}"); [|by destruct (_ && _)].
      destruct (depth =? INT_MIN)%Z; [done|]. by destruct (depth - 1 =? 0)%Z.
    - destruct (Ascii.eqb c NUL); [done|]. destruct (Ascii.eqb c "{").
      { destruct (depth =? INT_MAX)%Z; [done|apply IH2]. }
      destruct (Ascii.eqb c "}").
      { destruct (depth =? INT_MIN)%Z; [done|].
        destruct (depth - 1 =? 0)%Z; [|apply IH2].
        destruct (negb _); [done|apply IH1]. }
      destruct (_ && _); [apply IH1|apply IH2]. }
  unfold parse_round. destruct (Ascii.eqb (peek b) NUL); [done|].
  destruct (_ =? _); [done|]. destruct (negb _).
  - match goal with |- context [mbind _ ?m] => pose proof (eq_refl m); destruct m as [s1| |] eqn:E end;
      simpl; try done.
    destruct (_ =? 0)%Z; by apply Hadd in E.
  - unfold parse_value. destruct (_ || _); simpl.
    + match goal with |- context [mbind _ ?m] => destruct m as [s1| |] eqn:E end;
        simpl; try done. by apply Hadd in E.
    + destruct (Ascii.eqb _ "{"); simpl.
      * match goal with |- context [collection_loop ?d ?x ?y] =>
          pose proof (Hcoll d x y); destruct (collection_loop d x y) end; simpl; try done.
        match goal with |- context [mbind _ ?m] => destruct m as [s1| |] eqn:E end;
          simpl; try done. by apply Hadd in E.
      * match goal with |- context [mbind _ ?m] => destruct m as [s1| |] eqn:E end;
          simpl; try done. by apply Hadd in E.
Qed.

(** ** The parser: the main loop ends *)

Lemma parse_loop_fuel fuel fuel' allocs b n options :
  length b.2 < fuel → length b.2 < fuel' →
  parse_loop fuel allocs b n options = parse_loop fuel' allocs b n options.
Proof.
  revert fuel' allocs b n options.
  induction fuel as [|fuel IH]; intros [|fuel'] allocs b n options H H'; try lia.
  simpl. destruct (parse_round (hd true allocs) b n options) as [[b' s|s]| |] eqn:E;
    simpl; try done.
  apply parse_round_Next in E as [Hlt _]. apply IH; lia.
Qed.

Lemma parse_loop_terminates fuel allocs b n options :
  length b.2 < fuel → parse_loop fuel allocs b n options ≠ Exhausted.
Proof.
  revert allocs b n options.
  induction fuel as [|fuel IH]; intros allocs b n options H; [lia|].
  simpl. pose proof (parse_round_not_Exhausted (hd true allocs) b n options).
  destruct (parse_round (hd true allocs) b n options) as [[b' s|s]| |] eqn:E;
    simpl; try done.
  apply parse_round_Next in E as [Hlt _]. apply IH; lia.
Qed.

(** The main loop, round by round. *)
Lemma parse_from_unfold allocs b n options :
  parse_from allocs b n options =
  f ← parse_round (hd true allocs) b n options;
  match f with
  | Next b' s => parse_from (tl allocs) b' s.1 s.2
  | Leave s => Done s
  end.
Proof.
  unfold parse_from at 1. simpl.
  destruct (parse_round (hd true allocs) b n options) as [[b' s|s]| |] eqn:E;
    simpl; try done.
  apply parse_round_Next in E as [Hlt _]. apply parse_loop_fuel; lia.
Qed.

Lemma parse_from_end allocs before n options :
  parse_from allocs (before, []) n options = Done (n, options).
Proof. reflexivity. Qed.

Lemma cupsParseOptions_from allocs arg n array :
  (0 ≤ n)%Z →
  cupsParseOptions true allocs (Some arg) n (Some array) =
  parse_from allocs (leading_spaces [] (cstring arg)) n (Some array).
Proof.
  intros Hn. unfold cupsParseOptions.
  rewrite bool_decide_eq_false_2 by done.
  destruct (Z.ltb_spec n 0); [lia|]. cbn [orb negb].
  apply parse_loop_fuel; [|lia].
  pose proof (leading_spaces_length [] (cstring arg)). lia.
Qed.

Lemma cupsParseOptions_terminates strdup_ok allocs arg n options :
  cupsParseOptions strdup_ok allocs arg n options ≠ Exhausted.
Proof.
  unfold cupsParseOptions. destruct arg as [arg|]; [|done].
  destruct (_ || _); [done|]. destruct (negb strdup_ok); [done|].
  apply parse_loop_terminates.
  pose proof (leading_spaces_length [] (cstring arg)). lia.
Qed.

(** ** The parser keeps the store in good order *)

Lemma parse_loop_ok fuel allocs b n options s :
  store_ok (n, options) →
  parse_loop fuel allocs b n options = Done s → store_ok s.
Proof.
  revert allocs b n options.
  induction fuel as [|fuel IH]; intros allocs b n options Hok; [done|].
  simpl. destruct (parse_round (hd true allocs) b n options) as [[b' s'|s']| |] eqn:E;
    simpl; try done.
  - apply parse_round_Next in E as [_ (nm & v & Hadd)].
    destruct s' as [n' options']. apply IH. by eapply cupsAddOption_ok.
  - apply parse_round_Leave in E as ->. by intros [= <-].
Qed.

Lemma cupsParseOptions_ok strdup_ok allocs arg n options s :
  store_ok (n, options) →
  cupsParseOptions strdup_ok allocs arg n options = Done s → store_ok s.
Proof.
  intros Hok. unfold cupsParseOptions. destruct arg as [arg|]; [|by intros [= <-]].
  destruct Hok as (array & Harr & Hn & Hlen & Hdist). simpl in Harr, Hn, Hlen, Hdist.
  subst options.
  assert (store_ok (n, Some array)) as Hok by by exists array.
  rewrite bool_decide_eq_false_2 by done.
  destruct (Z.ltb_spec n 0); [lia|]. cbn [orb negb].
  destruct strdup_ok; cbn [negb]; [|by intros [= <-]].
  by apply parse_loop_ok.
Qed.

(** ** The parser: tokens *)

#[local] Arguments Ascii.eqb : simpl never.

Lemma isspace_NUL : isspace NUL = false.
Proof. reflexivity. Qed.

Lemma name_char_no_nul tok : forallb name_char tok = true → no_nul tok.
Proof.
  intros H. apply Forall_forall. intros c Hc%list_elem_of_In.
  rewrite forallb_forall in H. specialize (H c Hc). intros ->. done.
Qed.

Lemma leading_spaces_spaces before ws rest :
  forallb isspace ws = true → isspace (hd NUL rest) = false →
  leading_spaces before (ws ++ rest) = (before ++ ws, rest).
Proof.
  revert before. induction ws as [|c ws IH]; intros before Hws Hrest; simpl in *.
  - rewrite app_nil_r. destruct rest as [|c s]; [done|]. simpl in *. by rewrite Hrest.
  - apply andb_prop in Hws as [-> Hws]. rewrite IH by done. by rewrite <- app_assoc.
Qed.

Lemma name_loop_token before tok rest :
  forallb name_char tok = true → name_char (hd NUL rest) = false →
  name_loop before (tok ++ rest) = (before ++ tok, rest).
Proof.
  revert before. induction tok as [|c tok IH]; intros before Htok Hrest; simpl in *.
  - rewrite app_nil_r. destruct rest as [|c s]; [done|]. simpl in *.
    unfold name_char in Hrest. by rewrite Hrest.
  - apply andb_prop in Htok as [Hc Htok]. unfold name_char in Hc. rewrite Hc.
    rewrite IH by done. by rewrite <- app_assoc.
Qed.

Lemma space_loop_spaces before ws rest :
  forallb isspace ws = true → isspace (hd NUL rest) = false →
  space_loop before (ws ++ rest) = (before ++ replicate (length ws) NUL, rest).
Proof.
  revert before. induction ws as [|c ws IH]; intros before Hws Hrest; simpl in *.
  - rewrite app_nil_r. destruct rest as [|c s]; [done|]. simpl in *. by rewrite Hrest.
  - apply andb_prop in Hws as [-> Hws]. rewrite IH by done. by rewrite <- app_assoc.
Qed.

Lemma quoted_loop_cons quote before c s :
  quoted_loop quote before (c :: s) =
  if negb (Ascii.eqb c quote) && negb (Ascii.eqb c NUL) then
    if Ascii.eqb c backslash && negb (Ascii.eqb (hd NUL s) NUL)
    then quoted_loop quote (before ++ [hd NUL s]) (tl s)
    else quoted_loop quote (before ++ [c]) s
  else (before, c :: s).
Proof.
  destruct s as [|c1 s1]; simpl; [|done].
  destruct (_ && _); [|done]. by rewrite andb_false_r.
Qed.

Lemma unescape_no_nul quote s : quote_free quote s = true → no_nul (unescape s).
Proof.
  induction s as [|c| c c1 s IH1 IH2] using list_pair_ind; simpl.
  - constructor.
  - destruct (Ascii.eqb_spec c NUL); [done|]. intros _.
    destruct (Ascii.eqb c backslash); by repeat constructor.
  - destruct (Ascii.eqb_spec c NUL); [done|].
    destruct (Ascii.eqb c backslash).
    + destruct (Ascii.eqb_spec c1 NUL); [done|]. simpl. intros H.
      constructor; [done|]. by apply IH1.
    + intros [_ H]%andb_prop. constructor; [done|]. by apply IH2.
Qed.

(** The loop of a quoted value stops at the first quote no backslash
    covers, having dropped the backslashes on the way. *)
Lemma quoted_loop_closed quote before raw rest :
  quote ≠ NUL → quote ≠ backslash →
  quote_free quote raw = true → dangling raw = false →
  quoted_loop quote before (raw ++ quote :: rest) = (before ++ unescape raw, quote :: rest).
Proof.
  intros Hq0 Hqb. revert before.
  induction raw as [|c| c c1 s IH1 IH2] using list_pair_ind; intros before.
  - intros _ _. simpl. rewrite Ascii.eqb_refl. simpl. by rewrite app_nil_r.
  - simpl. destruct (Ascii.eqb_spec c NUL) as [|Hc0]; [done|].
    destruct (Ascii.eqb_spec c backslash) as [|Hcb]; [done|].
    destruct (Ascii.eqb_spec c quote) as [|Hcq]; [done|]. intros _ _. simpl.
    by rewrite Ascii.eqb_refl.
  - change ((c :: c1 :: s) ++ quote :: rest) with (c :: (c1 :: s) ++ quote :: rest).
    rewrite quoted_loop_cons. simpl.
    destruct (Ascii.eqb_spec c NUL) as [|Hc0]; [done|].
    destruct (Ascii.eqb_spec c backslash) as [->|Hcb].
    + destruct (Ascii.eqb_spec c1 NUL) as [|Hc1]; [done|]. simpl. intros Hf Hd.
      rewrite (proj2 (Ascii.eqb_neq _ _)) by done. simpl.
      rewrite IH1 by done. by rewrite <- app_assoc.
    + intros [Hcq Hf]%andb_prop Hd. rewrite Hcq. simpl.
      specialize (IH2 (before ++ [c]) Hf Hd). simpl in IH2.
      rewrite IH2. by rewrite <- app_assoc.
Qed.

(** Without such a quote it runs to the end of the string. *)
Lemma quoted_loop_open quote before raw :
  quote ≠ backslash → quote_free quote raw = true →
  quoted_loop quote before raw = (before ++ unescape raw, []).
Proof.
  intros Hqb. apply Ascii.eqb_neq in Hqb. rewrite Ascii.eqb_sym in Hqb. revert before.
  induction raw as [|c| c c1 s IH1 IH2] using list_pair_ind; intros before.
  - intros _. simpl. by rewrite app_nil_r.
  - simpl. destruct (Ascii.eqb_spec c NUL) as [|Hc0]; [done|].
    destruct (Ascii.eqb_spec c backslash) as [->|Hcb].
    + intros _. by rewrite Hqb.
    + intros [Hcq _]%andb_prop. by rewrite Hcq.
  - rewrite quoted_loop_cons. simpl.
    destruct (Ascii.eqb_spec c NUL) as [|Hc0]; [done|].
    destruct (Ascii.eqb_spec c backslash) as [->|Hcb].
    + destruct (Ascii.eqb_spec c1 NUL) as [|Hc1]; [done|]. simpl. intros Hf.
      rewrite Hqb. simpl. rewrite IH1 by done. by rewrite <- app_assoc.
    + intros [Hcq Hf]%andb_prop. rewrite Hcq. simpl.
      specialize (IH2 (before ++ [c]) Hf). simpl in IH2.
      rewrite IH2. by rewrite <- app_assoc.
Qed.

(** ** The parser: what a round hands to [cupsAddOption] *)

(** [cupsAddOption] reads its strings up to their terminators. *)
Lemma add_loop_cstring name i n temp :
  add_loop (cstring name) i n temp = add_loop name i n temp.
Proof.
  revert i. induction temp as [|o temp IH]; intros i; rewrite !(add_loop_eq _ i);
    [done|]. by rewrite strcasecmp_cstring_r, IH.
Qed.

Lemma cupsAddOption_cstring alloc_ok name value n options :
  cupsAddOption alloc_ok (Some name) (Some value) n options =
  cupsAddOption alloc_ok (Some (cstring name)) (Some (cstring value)) n options.
Proof.
  unfold cupsAddOption, _cupsStrAlloc. destruct options as [array|]; [|done].
  by rewrite hd_cstring, add_loop_cstring, !cstring_idemp.
Qed.

(** The string at a pointer to a token the parser has closed. *)
Lemma cstring_bytes_at before tok mid after :
  no_nul tok → hd NUL (mid ++ after) = NUL →
  cstring (bytes_at ((before ++ tok) ++ mid, after) (length before)) = tok.
Proof.
  intros Htok Hmid. unfold bytes_at. simpl.
  rewrite <- !app_assoc, drop_app_length, cstring_app by done.
  destruct (mid ++ after) as [|c s]; simpl in *; [by rewrite app_nil_r|].
  subst c. rewrite Ascii.eqb_refl. by rewrite app_nil_r.
Qed.

Lemma tolower_n c :
  (tolower c =? 110)%Z = Ascii.eqb c "n" || Ascii.eqb c "N".
Proof. by destruct c as [[] [] [] [] [] [] [] []]. Qed.

Lemma tolower_o c :
  (tolower c =? 111)%Z = Ascii.eqb c "o" || Ascii.eqb c "O".
Proof. by destruct c as [[] [] [] [] [] [] [] []]. Qed.

(** [!strncasecmp(name, "no", 2)] tells the prefix. *)
Lemma strncasecmp_no name :
  no_nul name →
  (strncasecmp name (lit "no") 2 =? 0)%Z = no_prefix name.
Proof.
  intros Hname. unfold strncasecmp, no_prefix, lit. simpl.
  change (tolower "n") with 110%Z. change (tolower "o") with 111%Z.
  destruct name as [|c1 [|c2 name]]; [done| |]; simpl.
  - apply Forall_cons in Hname as [Hc1 _]. rewrite (eqb_NUL_false _ Hc1).
    destruct (Z.eqb_spec (tolower c1) 110); [done|by apply Z.eqb_neq; lia].
  - apply Forall_cons in Hname as [Hc1 [Hc2 _]%Forall_cons].
    rewrite <- tolower_n, <- tolower_o, (eqb_NUL_false _ Hc1), (eqb_NUL_false _ Hc2).
    destruct (Z.eqb_spec (tolower c1) 110); [|simpl; by apply Z.eqb_neq; lia].
    destruct (Z.eqb_spec (tolower c2) 111); [done|simpl; by apply Z.eqb_neq; lia].
Qed.

Lemma strncasecmp_cstring s1 s2 k :
  strncasecmp (cstring s1) s2 k = strncasecmp s1 s2 k.
Proof.
  revert s1 s2. induction k as [|k IH]; intros s1 s2; simpl; [done|].
  rewrite hd_cstring. destruct s1 as [|c s1]; simpl; [done|].
  destruct (Ascii.eqb_spec c NUL) as [->|]; simpl; [done|by rewrite IH].
Qed.

Lemma cstring_drop k s : cstring (drop k (cstring s)) = drop k (cstring s).
Proof.
  apply cstring_id. unfold no_nul. apply Forall_drop, cstring_no_nul.
Qed.

Lemma cstring_at b1 after p pre tok post :
  b1 = pre ++ tok ++ post → p = length pre →
  no_nul tok → hd NUL (post ++ after) = NUL →
  cstring (bytes_at (b1, after) p) = tok.
Proof.
  intros -> -> Htok Hpost. rewrite app_assoc. by apply cstring_bytes_at.
Qed.

Lemma name_char_false c :
  name_char c = false → isspace c = false → Ascii.eqb c "=" = false → c = NUL.
Proof.
  unfold name_char. intros H Hs He. rewrite Hs, He in H. simpl in H.
  apply negb_false_iff in H. by apply Ascii.eqb_eq.
Qed.

Lemma offset_moved before tok : tok ≠ [] →
  (offset (before ++ tok, @nil ascii) =? offset (before, @nil ascii)) = false.
Proof.
  intros Htok. unfold offset. simpl. apply Nat.eqb_neq. rewrite length_app.
  destruct tok; [done|simpl; lia].
Qed.

(** A round at a name with no value. *)
Lemma parse_round_boolean alloc_ok before tok ws rest n options :
  tok ≠ [] → forallb name_char tok = true →
  forallb isspace ws = true → name_char (hd NUL (ws ++ rest)) = false →
  isspace (hd NUL rest) = false → Ascii.eqb (hd NUL rest) "=" = false →
  parse_round alloc_ok (before, tok ++ ws ++ rest) n options =
  s ← cupsAddOption alloc_ok
        (Some (if no_prefix tok then drop 2 tok else tok))
        (Some (lit (if no_prefix tok then "false" else "true"))) n options;
  Done (Next (before ++ tok ++ replicate (length ws) NUL, rest) s).
Proof.
  intros Htok Hname Hws Hend Hsp Heq.
  pose proof (name_char_no_nul _ Hname) as Hnul.
  unfold parse_round. cbn [fst snd].
  assert (peek (before, tok ++ ws ++ rest) ≠ NUL) as Hpeek.
  { unfold peek. destruct tok as [|c tok]; [done|]. simpl.
    by apply Forall_cons in Hnul as [? _]. }
  rewrite (eqb_NUL_false _ Hpeek), name_loop_token by done. cbn [fst snd].
  unfold offset. cbn [fst snd].
  replace (length (before ++ tok) =? length before) with false
    by (symmetry; apply (offset_moved before tok Htok)).
  rewrite space_loop_spaces by done. unfold peek at 1. cbn [fst snd].
  rewrite Heq. cbn [negb].
  assert (hd NUL (replicate (length ws) NUL ++ rest) = NUL) as Hmid.
  { destruct ws; [|done]. simpl in *. by apply name_char_false. }
  set (b := ((before ++ tok) ++ replicate (length ws) NUL, rest)).
  assert (cstring (bytes_at b (length before)) = tok) as Hat
    by by apply cstring_bytes_at.
  rewrite <- strncasecmp_cstring, Hat, strncasecmp_no by done.
  rewrite (app_assoc before tok). fold b.
  destruct (no_prefix tok) eqn:Hno.
  - rewrite cupsAddOption_cstring. do 4 f_equal.
    unfold bytes_at. rewrite <- drop_drop.
    destruct tok as [|c1 [|c2 tok']]; try done.
    unfold bytes_at, b. cbn [fst snd].
    rewrite <- !app_assoc, drop_app_length. simpl.
    do 2 apply Forall_cons in Hnul as [_ Hnul]. rewrite !drop_0, cstring_app by done.
    destruct (replicate (length ws) NUL ++ rest) as [|c s]; simpl in *; [by rewrite app_nil_r|].
    subst c. rewrite Ascii.eqb_refl. by rewrite app_nil_r.
  - rewrite cupsAddOption_cstring, Hat. done.
Qed.

(** A round at a name with a value: the name is closed where the [=]
    stood, and the value is parsed behind it. *)
Lemma parse_round_value alloc_ok before tok v n options :
  tok ≠ [] → forallb name_char tok = true →
  parse_round alloc_ok (before, tok ++ "="%char :: v) n options =
  '(value, b) ← parse_value (before ++ tok ++ [NUL], v);
  let b := space_loop b.1 b.2 in
  s ← cupsAddOption alloc_ok (Some (bytes_at b (length before)))
                    (Some (bytes_at b value)) n options;
  Done (Next b s).
Proof.
  intros Htok Hname. pose proof (name_char_no_nul _ Hname) as Hnul.
  unfold parse_round. cbn [fst snd].
  assert (peek (before, tok ++ "="%char :: v) ≠ NUL) as Hpeek.
  { unfold peek. destruct tok as [|c tok]; [done|]. simpl.
    by apply Forall_cons in Hnul as [? _]. }
  rewrite (eqb_NUL_false _ Hpeek), name_loop_token by done.
  unfold offset. cbn [fst snd].
  replace (length (before ++ tok) =? length before) with false
    by (symmetry; apply (offset_moved before tok Htok)).
  change (space_loop (before ++ tok) ("="%char :: v)) with (before ++ tok, "="%char :: v).
  unfold peek at 1, terminate. cbn [fst snd hd tl].
  rewrite Ascii.eqb_refl. cbn [negb]. by rewrite <- app_assoc.
Qed.

Lemma quote_cases quote :
  quote = squote ∨ quote = dquote →
  Ascii.eqb quote squote || Ascii.eqb quote dquote = true ∧
  quote ≠ NUL ∧ quote ≠ backslash.
Proof. by intros [-> | ->]. Qed.

(** A round at a pair whose value is quoted and closed. *)
Lemma parse_round_quoted alloc_ok before tok quote raw ws rest n options :
  tok ≠ [] → forallb name_char tok = true →
  quote = squote ∨ quote = dquote →
  quote_free quote raw = true → dangling raw = false →
  forallb isspace ws = true → isspace (hd NUL rest) = false →
  parse_round alloc_ok
    (before, tok ++ "="%char :: quote :: raw ++ quote :: ws ++ rest) n options =
  s ← cupsAddOption alloc_ok (Some tok) (Some (unescape raw)) n options;
  Done (Next (before ++ tok ++ NUL :: quote :: unescape raw ++
                NUL :: replicate (length ws) NUL, rest) s).
Proof.
  intros Htok Hname Hq Hfree Hdang Hws Hrest.
  pose proof (name_char_no_nul _ Hname) as Hnul.
  destruct (quote_cases _ Hq) as (Hq1 & Hq0 & Hqb).
  rewrite parse_round_value by done.
  unfold parse_value, peek, advance, offset. cbn [fst snd hd].
  rewrite Hq1, quoted_loop_closed by done.
  unfold close_value, peek, terminate. cbn [fst snd hd tl].
  rewrite (eqb_NUL_false _ Hq0). cbn [negb mbind outcome_bind fst snd].
  rewrite space_loop_spaces by done.
  rewrite cupsAddOption_cstring.
  set (b1 := (_ ++ replicate (length ws) NUL)).
  assert (b1 = before ++ tok ++ NUL :: quote :: unescape raw ++
                 NUL :: replicate (length ws) NUL) as Hb1.
  { subst b1. by rewrite <- !app_assoc. }
  rewrite (cstring_at b1 rest _ before tok
             (NUL :: quote :: unescape raw ++ NUL :: replicate (length ws) NUL))
    by done.
  rewrite (cstring_at b1 rest _ (before ++ tok ++ [NUL; quote]) (unescape raw)
             (NUL :: replicate (length ws) NUL)).
  - by rewrite Hb1.
  - rewrite Hb1. by rewrite <- !app_assoc.
  - by rewrite <- !app_assoc.
  - by eapply unescape_no_nul.
  - done.
Qed.

(** A round at a pair whose quoted value no quote closes. *)
Lemma parse_round_unterminated alloc_ok before tok quote raw n options :
  tok ≠ [] → forallb name_char tok = true →
  quote = squote ∨ quote = dquote →
  quote_free quote raw = true →
  parse_round alloc_ok (before, tok ++ "="%char :: quote :: raw) n options =
  s ← cupsAddOption alloc_ok (Some tok) (Some (unescape raw)) n options;
  Done (Next (before ++ tok ++ NUL :: quote :: unescape raw, []) s).
Proof.
  intros Htok Hname Hq Hfree.
  pose proof (name_char_no_nul _ Hname) as Hnul.
  destruct (quote_cases _ Hq) as (Hq1 & Hq0 & Hqb).
  rewrite parse_round_value by done.
  unfold parse_value, peek, advance, offset. cbn [fst snd hd].
  rewrite Hq1, quoted_loop_open by done.
  unfold close_value, peek. cbn [fst snd hd tl].
  rewrite Ascii.eqb_refl. cbn [negb mbind outcome_bind fst snd space_loop].
  rewrite cupsAddOption_cstring.
  set (b1 := (_ ++ unescape raw)).
  assert (b1 = before ++ tok ++ NUL :: quote :: unescape raw) as Hb1.
  { subst b1. by rewrite <- !app_assoc. }
  rewrite (cstring_at b1 [] _ before tok (NUL :: quote :: unescape raw)) by done.
  rewrite (cstring_at b1 [] _ (before ++ tok ++ [NUL; quote]) (unescape raw) []).
  - by rewrite Hb1.
  - rewrite Hb1, app_nil_r. by rewrite <- !app_assoc.
  - by rewrite <- !app_assoc.
  - by eapply unescape_no_nul.
  - done.
Qed.

(** A round at a byte no name can start with. *)
Lemma parse_round_empty_name alloc_ok before c rest n options :
  name_char c = false →
  parse_round alloc_ok (before, c :: rest) n options = Done (Leave (n, options)).
Proof.
  intros Hc. unfold parse_round, peek, offset. cbn [fst snd hd name_loop].
  unfold name_char in Hc. rewrite Hc. cbn [fst snd].
  rewrite Nat.eqb_refl. by destruct (Ascii.eqb c NUL).
Qed.

(** ** The main loop at a token *)

Lemma parse_from_step allocs b b' name value n options :
  parse_round (hd true allocs) b n options =
    (s ← cupsAddOption (hd true allocs) name value n options; Done (Next b' s)) →
  parse_from allocs b n options =
  s ← cupsAddOption (hd true allocs) name value n options;
  parse_from (tl allocs) b' s.1 s.2.
Proof.
  intros H. rewrite parse_from_unfold, H.
  by destruct (cupsAddOption (hd true allocs) name value n options).
Qed.

Lemma bind_Done {A} (m : outcome A) : (a ← m; Done a) = m.
Proof. by destruct m. Qed.

Lemma isspace_no_nul ws : forallb isspace ws = true → no_nul ws.
Proof.
  intros H. apply Forall_forall. intros c Hc%list_elem_of_In.
  rewrite forallb_forall in H. specialize (H c Hc). intros ->. done.
Qed.

Lemma collection_loop_cons depth before c s :
  collection_loop depth before (c :: s) =
  if Ascii.eqb c NUL then Done (before, c :: s)
  else if Ascii.eqb c "{" then
    if (depth =? INT_MAX)%Z then Undefined
    else collection_loop (depth + 1)%Z (before ++ [c]) s
  else if Ascii.eqb c "}" then
    if (depth =? INT_MIN)%Z then Undefined
    else if (depth - 1 =? 0)%Z then
      if negb (Ascii.eqb (hd NUL s) ",") then Done (before ++ [c], s)
      else collection_loop (depth - 1)%Z (before ++ [c; hd NUL s]) (tl s)
    else collection_loop (depth - 1)%Z (before ++ [c]) s
  else if Ascii.eqb c backslash && negb (Ascii.eqb (hd NUL s) NUL)
    then collection_loop depth (before ++ [hd NUL s]) (tl s)
    else collection_loop depth (before ++ [c]) s.
Proof.
  destruct s as [|c1 s1]; simpl; [|done].
  destruct (Ascii.eqb c NUL), (Ascii.eqb c "{"), (Ascii.eqb c "}"); try done.
  by rewrite andb_false_r.
Qed.

Lemma plain_inv c :
  plain c = true →
  Ascii.eqb c NUL = false ∧ Ascii.eqb c "{" = false ∧
  Ascii.eqb c "}" = false ∧ Ascii.eqb c backslash = false.
Proof.
  unfold plain. intros [[[H0 H1]%andb_prop H2]%andb_prop H3]%andb_prop.
  by apply negb_true_iff in H0, H1, H2, H3.
Qed.

Lemma collection_loop_plain depth before s :
  forallb plain s = true →
  collection_loop depth before s = Done (before ++ s, []).
Proof.
  revert before. induction s as [|c s IH]; intros before.
  - intros _. simpl. by rewrite app_nil_r.
  - simpl forallb. intros [(H0 & H1 & H2 & H3)%plain_inv Hs]%andb_prop.
    rewrite collection_loop_cons, H0, H1, H2, H3. cbn [andb].
    rewrite IH by done. by rewrite <- app_assoc.
Qed.

Lemma collection_loop_flat before body rest :
  forallb plain body = true → forallb plain rest = true →
  collection_loop 2 before (body ++ "}"%char :: rest) =
  Done (before ++ body ++ "}"%char :: rest, []).
Proof.
  intros Hbody Hrest. revert before.
  induction body as [|c body IH]; intros before.
  - simpl app. rewrite collection_loop_cons.
    change (Ascii.eqb "}" NUL) with false. change (Ascii.eqb "}" "{") with false.
    change (Ascii.eqb "}" "}") with true. change (2 - 1)%Z with 1%Z.
    change (1 =? 0)%Z with false. cbn [Z.eqb INT_MIN].
    rewrite collection_loop_plain by done. by rewrite <- app_assoc.
  - simpl in Hbody. apply andb_prop in Hbody as [(H0 & H1 & H2 & H3)%plain_inv Hbody].
    simpl app. rewrite collection_loop_cons, H0, H1, H2, H3. cbn [andb].
    rewrite IH by done. by rewrite <- app_assoc.
Qed.

(** What a call that finds its memory stores: the pair goes behind the
    entries when no entry bears the name, and its value into the first
    entry that bears the name otherwise. *)
Lemma cupsAddOption_stores name value n array :
  hd NUL name ≠ NUL → (0 ≤ n < INT_MAX)%Z → Z.to_nat n ≤ length array →
  ∃ n' array',
    cupsAddOption true (Some name) (Some value) n (Some array) = Done (n', Some array') ∧
    ((Forall (fun o => ¬ same_name name o) (entries n array) ∧ n' = (n + 1)%Z ∧
      entries n' array' =
        entries n array ++ [cups_option.make (cstring name) (cstring value)]) ∨
     (∃ l1 o l2, entries n array = l1 ++ o :: l2 ∧
        Forall (fun o' => ¬ same_name name o') l1 ∧ same_name name o ∧ n' = n ∧
        entries n' array' =
          l1 ++ cups_option.make (cups_option.name o) (cstring value) :: l2)).
Proof.
  intros Hname [Hn Hmax] Hlen.
  destruct (first_same_name name (entries n array))
    as [Hall|(l1 & o & l2 & Hent & Hl1 & Ho)].
  - rewrite cupsAddOption_fresh by done.
    destruct (Z.eqb_spec n INT_MAX); [lia|].
    pose proof (entries_length n array Hlen) as Hl.
    eexists _, _. split; [done|]. left. repeat split; [done|].
    unfold entries at 1. rewrite take_ge; [done|]. rewrite length_app. simpl. lia.
  - rewrite (cupsAddOption_replace _ _ _ _ _ _ _ _ Hname Hent Hl1 Ho).
    eexists _, _. split; [done|]. right. exists l1, o, l2. repeat split; try done.
    assert (length l1 < Z.to_nat n) as Hi.
    { rewrite <- (entries_length n array), Hent, length_app by done. simpl. lia. }
    unfold entries. rewrite take_insert_lt by done. fold (entries n array).
    rewrite Hent, insert_app_r_alt, Nat.sub_diag by done. reflexivity.
Qed.

(** * The claims *)

(** ** C1: collection values *)

(** C1, a defect of the code.  The claim has the value of [name={...}] end
    at the brace that matches the opening one.  The loop starts with
    [depth = 1] and [ptr] still on the opening brace, so that brace is
    counted too: the depth is 2 behind it, and the matching brace brings
    it back to 1, not to 0.  For a collection with no brace inside, the
    value runs to the end of the string whatever follows the closing
    brace; parsing [opt={a=1} b=2] stores the one pair
    [(opt, {a=1} b=2)], where the claim has [(opt, {a=1})] and then
    [(b, 2)]. *)
Theorem collection_value_overruns_matching_brace :
  (∀ before body rest,
     forallb plain body = true → forallb plain rest = true →
     collection_loop 1 before ("{"%char :: body ++ "}"%char :: rest) =
     Done (before ++ "{"%char :: body ++ "}"%char :: rest, [])) ∧
  cupsParseOptions true [] (Some (lit "opt={a=1} b=2")) 0 (Some []) =
  Done (1%Z, Some [cups_option.make (lit "opt") (lit "{a=1} b=2")]).
Proof.
  split; [|by vm_compute].
  intros before body rest Hbody Hrest.
  change (collection_loop 1 before ("{"%char :: body ++ "}"%char :: rest))
    with (collection_loop 2 (before ++ ["{"%char]) (body ++ "}"%char :: rest)).
  rewrite collection_loop_flat by done. by rewrite <- app_assoc.
Qed.

(** ** C2: invalid arguments *)

(** C2 as the claim states it fails for [cupsParseOptions]: with a
    negative count, or with no store, it returns 0, not the count it was
    given. *)
Lemma parse_options_invalid_store_returns_zero :
  cupsParseOptions true [] (Some (lit "a=1")) (-1) (Some []) = Done (0%Z, Some []) ∧
  cupsParseOptions true [] (Some (lit "a=1")) 3 None = Done (0%Z, None) ∧
  (0 ≠ -1)%Z ∧ (0 ≠ 3)%Z.
Proof. by vm_compute. Qed.

(** C2, amended.  [cupsAddOption] and [cupsRemoveOption] given a null
    name, value or store pointer, or a negative count, return the count
    they were given and leave the store alone; so does
    [cupsParseOptions] given a null argument string.  Given an argument
    string and a null store pointer or a negative count,
    [cupsParseOptions] leaves the store alone and returns 0. *)
Theorem invalid_arguments_leave_store :
  (∀ alloc_ok name value n options,
     name = None ∨ value = None ∨ options = None ∨ (n < 0)%Z →
     cupsAddOption alloc_ok name value n options = Done (n, options)) ∧
  (∀ name n options,
     name = None ∨ options = None ∨ (n < 0)%Z →
     cupsRemoveOption name n options = Done (n, options)) ∧
  (∀ strdup_ok allocs n options,
     cupsParseOptions strdup_ok allocs None n options = Done (n, options)) ∧
  (∀ strdup_ok allocs arg n options,
     options = None ∨ (n < 0)%Z →
     cupsParseOptions strdup_ok allocs (Some arg) n options = Done (0%Z, options)).
Proof.
  repeat split.
  - intros. by apply cupsAddOption_invalid.
  - intros name n options H. apply cupsRemoveOption_invalid.
    destruct H as [|[|]]; auto. right; right. lia.
  - intros strdup_ok allocs arg n options H. unfold cupsParseOptions.
    destruct H as [->|H]; [done|].
    destruct (Z.ltb_spec n 0); [|lia]. by rewrite orb_true_r.
Qed.

Lemma invalid_arguments_leave_store_witness :
  cupsAddOption true (Some (lit "a")) None 2 (Some []) = Done (2%Z, Some []) ∧
  cupsRemoveOption (Some (lit "a")) (-1) (Some []) = Done ((-1)%Z, Some []) ∧
  cupsParseOptions true [] (Some (lit "a=1")) (-1) (Some []) = Done (0%Z, Some []).
Proof.
  destruct invalid_arguments_leave_store as (Hadd & Hremove & _ & Hparse).
  split; [|split].
  - apply Hadd. right; left; reflexivity.
  - apply Hremove. right; right; reflexivity.
  - apply Hparse. right; reflexivity.
Defined.

(** ** C3: names stay distinct *)

Lemma reachable_ok s : reachable s → store_ok s.
Proof.
  induction 1 as [|alloc_ok name value [n o] s' _ IH H|name [n o] s' _ IH H
                  |strdup_ok allocs arg [n o] s' _ IH H].
  - exists []. repeat split; simpl; done.
  - by eapply cupsAddOption_ok.
  - by eapply cupsRemoveOption_ok.
  - by eapply cupsParseOptions_ok.
Qed.

(** C3.  In every store reached from the empty one by [cupsAddOption],
    [cupsRemoveOption] and [cupsParseOptions], whatever the allocator
    does, the names of the entries are pairwise distinct, letter case
    apart.  In particular [cupsAddOption] with a name that the store
    holds, letter case apart, puts the new value into that entry, where
    it stands, and returns the count unchanged; adding [a=1] and then
    [a=2] to the empty store leaves the one entry [a=2]. *)
Theorem names_stay_distinct :
  (∀ s, reachable s →
     ∃ array, s.2 = Some array ∧ names_distinct (entries s.1 array)) ∧
  (∀ alloc_ok name value n array l1 o l2,
     hd NUL name ≠ NUL →
     entries n array = l1 ++ o :: l2 →
     Forall (fun o' => ¬ same_name name o') l1 → same_name name o →
     cupsAddOption alloc_ok (Some name) (Some value) n (Some array) =
     Done (n, Some (<[length l1 :=
                       cups_option.make (cups_option.name o) (cstring value)]> array))) ∧
  (s ← cupsAddOption true (Some (lit "a")) (Some (lit "1")) 0 (Some []);
   cupsAddOption true (Some (lit "a")) (Some (lit "2")) s.1 s.2) =
  Done (1%Z, Some [cups_option.make (lit "a") (lit "2")]).
Proof.
  split; [|split].
  - intros s Hs. destruct (reachable_ok s Hs) as (array & ? & _ & _ & ?). eauto.
  - intros alloc_ok name value n array l1 o l2 H1 H2 H3 H4.
    exact (cupsAddOption_replace _ _ _ _ _ _ _ _ H1 H2 H3 H4).
  - by vm_compute.
Qed.

Lemma names_stay_distinct_witness :
  ∃ array,
    Some [cups_option.make (lit "a") (lit "3"); cups_option.make (lit "b") (lit "2")]
      = Some array ∧
    names_distinct (entries 2 array).
Proof.
  apply (proj1 names_stay_distinct
           (2%Z, Some [cups_option.make (lit "a") (lit "3");
                       cups_option.make (lit "b") (lit "2")])).
  apply (reachable_parse true [] (Some (lit "a=1 b=2 A=3")) (0%Z, Some [])).
  - apply reachable_empty.
  - vm_compute. reflexivity.
Defined.

(** ** C4: names with no value *)

(** C4 as the claim states it fails for the token [no]: it starts with
    the prefix, so the claim has the pair of the empty name and [false]
    added; parsing [landscape no] stores the one pair [(landscape, true)]
    and returns 1. *)
Lemma boolean_shorthand_no_stores_nothing :
  cupsParseOptions true [] (Some (lit "landscape no")) 0 (Some []) =
  Done (1%Z, Some [cups_option.make (lit "landscape") (lit "true")]) ∧
  no_prefix (lit "no") = true.
Proof. by vm_compute. Qed.

(** C4, amended.  Let the main loop stand at a name [tok] (bytes that are
    neither white space, nor [=], nor the terminator, up to one that is),
    which the white space [ws] follows (all there is of it) and then, at
    the start of [rest], no [=].  Let [name] be [tok] less its first two
    bytes and [value] be [false] if [tok] starts with [no] in either
    letter case, and let them be [tok] and [true] otherwise.

    If [name] is not empty, the store is there with a count from 0 to
    below [INT_MAX], and [cupsAddOption] finds the memory it asks for,
    the round stores the pair and the loop goes on at [rest]: when no
    entry bears [name] (letter case apart) the pair [(name, value)] is put
    behind the entries and the count grows by one; otherwise [value]
    becomes the value of the first entry that bears [name], and nothing
    else changes.

    If [name] is empty (the token is [no] itself), the round stores
    nothing and the loop goes on at [rest] with the store as it is.

    ([parse_from] at the cursor behind the leading white space is the call
    itself, lemma [cupsParseOptions_from].)  Parsing [landscape nocollate]
    gives [(landscape, true)] and [(collate, false)]. *)
Theorem boolean_shorthand :
  (∀ allocs before tok ws rest n array name value,
     tok ≠ [] → forallb name_char tok = true →
     forallb isspace ws = true → name_char (hd NUL (ws ++ rest)) = false →
     isspace (hd NUL rest) = false → Ascii.eqb (hd NUL rest) "=" = false →
     name = (if no_prefix tok then drop 2 tok else tok) →
     value = lit (if no_prefix tok then "false" else "true") →
     name ≠ [] →
     hd true allocs = true → (0 ≤ n < INT_MAX)%Z → Z.to_nat n ≤ length array →
     ∃ n' array',
       parse_from allocs (before, tok ++ ws ++ rest) n (Some array) =
       parse_from (tl allocs) (before ++ tok ++ replicate (length ws) NUL, rest)
                  n' (Some array') ∧
       ((Forall (fun o => ¬ same_name name o) (entries n array) ∧ n' = (n + 1)%Z ∧
         entries n' array' = entries n array ++ [cups_option.make name value]) ∨
        (∃ l1 o l2, entries n array = l1 ++ o :: l2 ∧
           Forall (fun o' => ¬ same_name name o') l1 ∧ same_name name o ∧ n' = n ∧
           entries n' array' =
             l1 ++ cups_option.make (cups_option.name o) value :: l2))) ∧
  (∀ allocs before tok ws rest n options,
     tok ≠ [] → forallb name_char tok = true →
     forallb isspace ws = true → name_char (hd NUL (ws ++ rest)) = false →
     isspace (hd NUL rest) = false → Ascii.eqb (hd NUL rest) "=" = false →
     no_prefix tok = true → drop 2 tok = [] →
     parse_from allocs (before, tok ++ ws ++ rest) n options =
     parse_from (tl allocs) (before ++ tok ++ replicate (length ws) NUL, rest)
                n options) ∧
  cupsParseOptions true [] (Some (lit "landscape nocollate")) 0 (Some []) =
  Done (2%Z, Some [cups_option.make (lit "landscape") (lit "true");
                   cups_option.make (lit "collate") (lit "false")]).
Proof.
  split; [|split; [|by vm_compute]].
  - intros allocs before tok ws rest n array name value
      Htok Hname Hws Hend Hsp Heq Ename Evalue Hleft Halloc Hn Hlen.
    assert (no_nul name) as Hnul.
    { pose proof (name_char_no_nul _ Hname) as Hnul. subst name.
      destruct (no_prefix tok); [by apply Forall_drop|done]. }
    assert (hd NUL name ≠ NUL) as Hhd.
    { destruct name as [|c name]; [done|]. by apply Forall_cons in Hnul as [? _]. }
    assert (cstring value = value) as Hvalue.
    { subst value. by destruct (no_prefix tok). }
    destruct (cupsAddOption_stores name value n array Hhd Hn Hlen)
      as (n' & array' & Hadd & Hstore).
    exists n', array'. split.
    + rewrite (parse_from_step _ _ _ _ _ _ _
                 (parse_round_boolean _ _ _ _ _ _ _ Htok Hname Hws Hend Hsp Heq)).
      by rewrite <- Ename, <- Evalue, Halloc, Hadd.
    + by rewrite (cstring_id name), Hvalue in Hstore.
  - intros allocs before tok ws rest n options Htok Hname Hws Hend Hsp Heq Hno Hdrop.
    rewrite (parse_from_step _ _ _ _ _ _ _
               (parse_round_boolean _ _ _ _ _ _ _ Htok Hname Hws Hend Hsp Heq)).
    rewrite Hno, Hdrop. by rewrite cupsAddOption_empty_name.
Qed.

Lemma boolean_shorthand_witness :
  ∃ n' array',
    parse_from [] ([], lit "nocollate" ++ lit " " ++ lit "x") 0 (Some []) =
    parse_from [] ([] ++ lit "nocollate" ++ replicate (length (lit " ")) NUL, lit "x")
               n' (Some array') ∧
    ((Forall (fun o => ¬ same_name (lit "collate") o) (entries 0 []) ∧ n' = (0 + 1)%Z ∧
      entries n' array' =
        entries 0 [] ++ [cups_option.make (lit "collate") (lit "false")]) ∨
     (∃ l1 o l2, entries 0 [] = l1 ++ o :: l2 ∧
        Forall (fun o' => ¬ same_name (lit "collate") o') l1 ∧
        same_name (lit "collate") o ∧ n' = 0%Z ∧
        entries n' array' =
          l1 ++ cups_option.make (cups_option.name o) (lit "false") :: l2)).
Proof.
  apply (proj1 boolean_shorthand [] [] (lit "nocollate") (lit " ") (lit "x") 0%Z []
           (lit "collate") (lit "false")).
  - discriminate.
  - reflexivity.
  - reflexivity.
  - reflexivity.
  - reflexivity.
  - reflexivity.
  - reflexivity.
  - reflexivity.
  - discriminate.
  - reflexivity.
  - unfold INT_MAX. lia.
  - apply le_n.
Defined.

(** ** C5: no memory to grow the store *)

(** C5 as the claim states it fails: with three entries in the store and
    no memory for a fourth, [cupsAddOption] returns 0, not 3. *)
Lemma add_option_no_memory_returns_zero :
  cupsAddOption false (Some (lit "d")) (Some (lit "4")) 3
    (Some [cups_option.make (lit "a") (lit "1");
           cups_option.make (lit "b") (lit "2");
           cups_option.make (lit "c") (lit "3")]) =
  Done (0%Z, Some [cups_option.make (lit "a") (lit "1");
                   cups_option.make (lit "b") (lit "2");
                   cups_option.make (lit "c") (lit "3")]) ∧
  (0 ≠ 3)%Z.
Proof. by vm_compute. Qed.

(** C5, amended.  When [cupsAddOption] has to grow the store (the name is
    not empty and no entry bears it) and the allocation fails, it leaves
    the block of the store as it is and returns 0, whatever the count
    below [INT_MAX] it was given.  (At [INT_MAX] the size asked of
    [realloc], [num_options + 1] entries, overflows before the call is
    made.) *)
Theorem add_option_no_memory name value n array :
  hd NUL name ≠ NUL → (0 ≤ n < INT_MAX)%Z → Z.to_nat n ≤ length array →
  Forall (fun o => ¬ same_name name o) (entries n array) →
  cupsAddOption false (Some name) (Some value) n (Some array) =
  Done (0%Z, Some array).
Proof.
  intros Hname [Hn Hmax] Hlen Hall. rewrite cupsAddOption_fresh by done.
  by destruct (Z.eqb_spec n INT_MAX); [lia|].
Qed.

Lemma add_option_no_memory_witness :
  cupsAddOption false (Some (lit "b")) (Some (lit "2")) 1
    (Some [cups_option.make (lit "a") (lit "1")]) =
  Done (0%Z, Some [cups_option.make (lit "a") (lit "1")]).
Proof.
  apply add_option_no_memory.
  - discriminate.
  - unfold INT_MAX. lia.
  - apply le_n.
  - constructor; [discriminate|constructor].
Defined.

(** ** C6: quoted values *)

(** C6.  Let the main loop stand at a pair: the name [tok], [=], a quote
    (single or double), a text [raw] that holds that quote only behind a
    backslash and does not end in a backslash with nothing to escape, and
    the quote again.  The loop hands to [cupsAddOption] the name [tok]
    and, as the value, [raw] with every backslash that a byte follows
    collapsed into that byte ([unescape]): all that stands between the
    two quotes.  It goes on behind the closing quote and the white space
    [ws] after it.  Parsing [name="a \"b\" c"] gives the value
    [a "b" c]. *)
Theorem quoted_value :
  (∀ allocs before tok quote raw ws rest n options,
     tok ≠ [] → forallb name_char tok = true →
     quote = squote ∨ quote = dquote →
     quote_free quote raw = true → dangling raw = false →
     forallb isspace ws = true → isspace (hd NUL rest) = false →
     parse_from allocs
       (before, tok ++ "="%char :: quote :: raw ++ quote :: ws ++ rest) n options =
     s ← cupsAddOption (hd true allocs) (Some tok) (Some (unescape raw)) n options;
     parse_from (tl allocs)
       (before ++ tok ++ NUL :: quote :: unescape raw ++
          NUL :: replicate (length ws) NUL, rest) s.1 s.2) ∧
  cupsParseOptions true []
    (Some (lit "name=" ++ dquote :: lit "a \" ++ dquote :: lit "b\" ++ dquote ::
             lit " c" ++ [dquote])) 0 (Some []) =
  Done (1%Z, Some [cups_option.make (lit "name")
                     (lit "a " ++ dquote :: lit "b" ++ dquote :: lit " c")]).
Proof.
  split; [|by vm_compute].
  intros. by apply parse_from_step, parse_round_quoted.
Qed.

Lemma quoted_value_witness :
  parse_from [] ([], lit "t='it\'s' x") 0 (Some []) =
  s ← cupsAddOption true (Some (lit "t")) (Some (lit "it's")) 0 (Some []);
  parse_from [] (lit "t" ++ NUL :: lit "'it's" ++ [NUL; NUL], lit "x") s.1 s.2.
Proof.
  exact (proj1 quoted_value [] [] (lit "t") squote (lit "it\'s") (lit " ") (lit "x")
           0%Z (Some []) ltac:(discriminate) eq_refl (or_introl eq_refl)
           eq_refl eq_refl eq_refl eq_refl).
Defined.

(** ** C7: removing an option *)

(** C7.  [cupsRemoveOption] looks for the first entry that bears the name,
    letter case apart.  If there is one, it returns the count less one
    and moves the entries behind it one slot down (the last slot keeps
    what it held, beyond the new count): the entries are those before it
    followed by those behind it, in their order.  If there is none, if
    the count is below 1 or if a pointer is null, it returns the count it
    was given and leaves the store alone.  Removing [b] from the entries
    [a], [b], [c] leaves [a], [c]. *)
Theorem remove_option_compacts :
  (∀ name n array l1 o l2,
     Z.to_nat n ≤ length array →
     entries n array = l1 ++ o :: l2 →
     Forall (fun o' => ¬ same_name name o') l1 → same_name name o →
     cupsRemoveOption (Some name) n (Some array) =
       Done ((n - 1)%Z, Some (l1 ++ l2 ++ drop (Z.to_nat n - 1) array)) ∧
     entries (n - 1) (l1 ++ l2 ++ drop (Z.to_nat n - 1) array) = l1 ++ l2) ∧
  (∀ name n array,
     Z.to_nat n ≤ length array →
     Forall (fun o => ¬ same_name name o) (entries n array) →
     cupsRemoveOption (Some name) n (Some array) = Done (n, Some array)) ∧
  (∀ name n options,
     name = None ∨ options = None ∨ (n < 1)%Z →
     cupsRemoveOption name n options = Done (n, options)) ∧
  (s ← cupsAddOption true (Some (lit "a")) (Some (lit "1")) 0 (Some []);
   s ← cupsAddOption true (Some (lit "b")) (Some (lit "2")) s.1 s.2;
   s ← cupsAddOption true (Some (lit "c")) (Some (lit "3")) s.1 s.2;
   s ← cupsRemoveOption (Some (lit "b")) s.1 s.2;
   Done (s.1, store_entries s)) =
  Done (2%Z, [cups_option.make (lit "a") (lit "1");
              cups_option.make (lit "c") (lit "3")]).
Proof.
  split; [|split; [|split]].
  - intros name n array l1 o l2 Hlen Hent Hl1 Ho.
    split; [by eapply cupsRemoveOption_found|].
    assert (length l1 + S (length l2) = Z.to_nat n) as Hl.
    { rewrite <- (entries_length n array), Hent, length_app by done. done. }
    unfold entries. rewrite app_assoc, take_app_length'; [done|].
    rewrite length_app. lia.
  - intros. by apply cupsRemoveOption_absent.
  - intros. by apply cupsRemoveOption_invalid.
  - by vm_compute.
Qed.

Lemma remove_option_compacts_witness :
  cupsRemoveOption (Some (lit "B")) 2
    (Some [cups_option.make (lit "a") (lit "1");
           cups_option.make (lit "b") (lit "2")]) =
    Done (1%Z, Some [cups_option.make (lit "a") (lit "1");
                     cups_option.make (lit "b") (lit "2")]) ∧
  entries 1 [cups_option.make (lit "a") (lit "1");
             cups_option.make (lit "b") (lit "2")] =
    [cups_option.make (lit "a") (lit "1")].
Proof.
  apply (proj1 remove_option_compacts (lit "B") 2%Z
           [cups_option.make (lit "a") (lit "1"); cups_option.make (lit "b") (lit "2")]
           [cups_option.make (lit "a") (lit "1")]
           (cups_option.make (lit "b") (lit "2")) []).
  - apply le_n.
  - reflexivity.
  - constructor; [discriminate|constructor].
  - reflexivity.
Defined.

(** ** C8: quoted values that no quote closes *)

(** C8.  Let the main loop stand at a pair: the name [tok], [=], a quote
    (single or double) and a text [raw] that runs to the end of the
    string and holds that quote only behind a backslash.  The loop hands
    to [cupsAddOption] the name [tok] and, as the value, all of [raw]
    (backslashes collapsed as in a closed value); the string being at
    its end, the call returns what [cupsAddOption] returns: no error is
    raised for the missing quote.  Parsing [name=], a double quote and
    [abc] gives the value [abc]. *)
Theorem unterminated_quote :
  (∀ allocs before tok quote raw n options,
     tok ≠ [] → forallb name_char tok = true →
     quote = squote ∨ quote = dquote →
     quote_free quote raw = true →
     parse_from allocs (before, tok ++ "="%char :: quote :: raw) n options =
     cupsAddOption (hd true allocs) (Some tok) (Some (unescape raw)) n options) ∧
  cupsParseOptions true [] (Some (lit "name=" ++ dquote :: lit "abc")) 0 (Some []) =
  Done (1%Z, Some [cups_option.make (lit "name") (lit "abc")]).
Proof.
  split; [|by vm_compute].
  intros allocs before tok quote raw n options Htok Hname Hq Hfree.
  rewrite (parse_from_step allocs _ _ _ _ n options
             (parse_round_unterminated _ before tok quote raw n options Htok Hname Hq Hfree)).
  destruct (cupsAddOption _ _ _ _ _) as [[n' o']| |]; try done.
Qed.

Lemma unterminated_quote_witness :
  parse_from [] ([], lit "t='ab\'c") 0 (Some []) =
  cupsAddOption true (Some (lit "t")) (Some (lit "ab'c")) 0 (Some []).
Proof.
  exact (proj1 unterminated_quote [] [] (lit "t") squote (lit "ab\'c")
           0%Z (Some []) ltac:(discriminate) eq_refl (or_introl eq_refl) eq_refl).
Defined.

(** ** C9: a token with no name *)

(** C9.  When the main loop stands at a byte that no name can start with
    (a [=]), the scan of the name takes no byte and the loop is left:
    the call returns the store as the pairs before have made it, and
    no error.  Parsing [a=1 =x b=2] adds the pair [(a, 1)] only. *)
Theorem empty_name_stops_parsing :
  (∀ allocs before c rest n options,
     name_char c = false →
     parse_from allocs (before, c :: rest) n options = Done (n, options)) ∧
  cupsParseOptions true [] (Some (lit "a=1 =x b=2")) 0 (Some []) =
  Done (1%Z, Some [cups_option.make (lit "a") (lit "1")]).
Proof.
  split; [|by vm_compute].
  intros allocs before c rest n options Hc.
  by rewrite parse_from_unfold, parse_round_empty_name.
Qed.

Lemma empty_name_stops_parsing_witness :
  parse_from [] (lit "a", lit "=x b=2") 1 (Some [cups_option.make (lit "a") (lit "1")]) =
  Done (1%Z, Some [cups_option.make (lit "a") (lit "1")]).
Proof.
  exact (proj1 empty_name_stops_parsing [] (lit "a") "="%char (lit "x b=2") 1%Z
           (Some [cups_option.make (lit "a") (lit "1")]) eq_refl).
Defined.

(** ** C10: the bare token [no] *)

(** C10.  For every store (a block and a count that is not negative),
    parsing an argument that holds the one token [no], in any letter
    case, with or without white space around it, returns the count and
    the block unchanged: the name left behind the prefix is empty, and
    [cupsAddOption] refuses it. *)
Theorem bare_no_adds_nothing strdup_ok allocs c1 c2 ws1 ws2 n array :
  c1 = "n"%char ∨ c1 = "N"%char → c2 = "o"%char ∨ c2 = "O"%char →
  forallb isspace ws1 = true → forallb isspace ws2 = true → (0 ≤ n)%Z →
  cupsParseOptions strdup_ok allocs (Some (ws1 ++ c1 :: c2 :: ws2)) n (Some array) =
  Done (n, Some array).
Proof.
  intros H1 H2 Hws1 Hws2 Hn.
  destruct strdup_ok.
  2:{ unfold cupsParseOptions. rewrite bool_decide_eq_false_2 by done.
      by destruct (Z.ltb_spec n 0); [lia|]. }
  rewrite cupsParseOptions_from by done.
  assert (forallb name_char [c1; c2] = true ∧ no_prefix [c1; c2] = true) as [Hname Hno].
  { by destruct H1 as [-> | ->], H2 as [-> | ->]. }
  assert (no_nul (ws1 ++ c1 :: c2 :: ws2)) as Hnul.
  { apply Forall_app. split; [by apply isspace_no_nul|].
    pose proof (name_char_no_nul _ Hname) as H.
    apply Forall_cons in H as [? [? _]%Forall_cons].
    repeat (apply Forall_cons; split; [done|]). by apply isspace_no_nul. }
  rewrite cstring_id by done.
  rewrite leading_spaces_spaces by (done || by destruct H1 as [-> | ->]).
  replace (c1 :: c2 :: ws2) with ([c1; c2] ++ ws2 ++ []) by by rewrite app_nil_r.
  rewrite (parse_from_step allocs _ _ _ _ n (Some array)
             (parse_round_boolean _ _ [c1; c2] ws2 [] n (Some array)
                ltac:(done) Hname Hws2
                ltac:(rewrite app_nil_r; destruct ws2 as [|c ws2]; [done|];
                      apply andb_prop in Hws2 as [Hc _]; unfold name_char; simpl;
                      by rewrite Hc)
                eq_refl eq_refl)).
  rewrite Hno. simpl drop.
  rewrite cupsAddOption_empty_name by done. reflexivity.
Qed.

Lemma bare_no_adds_nothing_witness :
  cupsParseOptions true [] (Some (lit " " ++ "N"%char :: "o"%char :: lit "  ")) 1
    (Some [cups_option.make (lit "a") (lit "1")]) =
  Done (1%Z, Some [cups_option.make (lit "a") (lit "1")]).
Proof.
  apply (bare_no_adds_nothing true [] "N"%char "o"%char (lit " ") (lit "  ") 1%Z).
  - right; reflexivity.
  - left; reflexivity.
  - reflexivity.
  - reflexivity.
  - discriminate.
Defined.

(** * Further properties *)

(** ** Names are compared letter case apart *)

Lemma strcasecmp_0_iff s t :
  strcasecmp s t = 0%Z ↔ tolower <$> cstring s = tolower <$> cstring t.
Proof.
  revert t. induction s as [|c s IH]; intros [|d t]; simpl.
  - done.
  - destruct (Ascii.eqb_spec d NUL) as [->|Hd]; [done|]. simpl. split; [|done].
    intros H. destruct Hd. apply tolower_0. lia.
  - destruct (Ascii.eqb_spec c NUL) as [->|Hc]; [done|]. simpl. split; [|done].
    intros H. destruct Hc. by apply tolower_0.
  - destruct (Z.eqb_spec (tolower c) (tolower d)) as [E|E].
    + destruct (Ascii.eqb_spec c NUL) as [->|Hc].
      * rewrite tolower_NUL in E. symmetry in E. apply tolower_0 in E as ->.
        by rewrite Ascii.eqb_refl.
      * destruct (Ascii.eqb_spec d NUL) as [->|Hd].
        { rewrite tolower_NUL in E. by apply tolower_0 in E. }
        cbv iota. rewrite !fmap_cons, IH, E. split; [by intros ->|by intros [= ->]].
    + split; [lia|]. intros H.
      destruct (Ascii.eqb_spec c NUL) as [->|Hc], (Ascii.eqb_spec d NUL) as [->|Hd];
        simpl in H; try done. by injection H.
Qed.

Lemma strcasecmp_trans_0 s t u :
  strcasecmp s t = 0%Z → strcasecmp t u = 0%Z → strcasecmp s u = 0%Z.
Proof. rewrite !strcasecmp_0_iff. by intros -> ->. Qed.

Lemma same_name_equiv name name' o :
  strcasecmp name' name = 0%Z → same_name name' o ↔ same_name name o.
Proof.
  intros H. unfold same_name. split; intros Ho.
  - by eapply strcasecmp_trans_0.
  - eapply strcasecmp_trans_0; [exact Ho|]. by apply strcasecmp_sym_0.
Qed.

(** ** [cupsGetOption] *)

Lemma get_loop_eq name i n at_i :
  get_loop name i n at_i =
  if (i <? n)%Z then
    match at_i with
    | [] => Undefined
    | o :: rest =>
        if (strcasecmp (cups_option.name o) name =? 0)%Z
        then Done (Some (cups_option.value o))
        else get_loop name (i + 1)%Z n rest
    end
  else Done None.
Proof. by destruct at_i. Qed.

Lemma get_loop_found name i n l1 o l2 :
  Forall (fun o' => ¬ same_name name o') l1 → same_name name o →
  (i + Z.of_nat (length l1) < n)%Z →
  get_loop name i n (l1 ++ o :: l2) = Done (Some (cups_option.value o)).
Proof.
  intros Hl1 Ho. revert i.
  induction Hl1 as [|o' l1 Ho' _ IH]; intros i Hi; rewrite get_loop_eq; simpl in *.
  - destruct (Z.ltb_spec i n); [|lia]. unfold same_name in Ho. by rewrite Ho.
  - destruct (Z.ltb_spec i n); [|lia]. unfold same_name in Ho'.
    destruct (Z.eqb_spec (strcasecmp (cups_option.name o') name) 0); [done|].
    apply IH. lia.
Qed.

(** The value [cupsAddOption] has stored under a name is the one
    [cupsGetOption] returns for that name in any letter case, whether the
    name was new to the store or not.  ("Case-insensitive identity":
    after adding [Copies=2], getting [copies] returns [2].) *)
Theorem get_option_after_add name name' value n array s :
  hd NUL name ≠ NUL → (0 ≤ n)%Z → Z.to_nat n ≤ length array →
  strcasecmp name' name = 0%Z →
  cupsAddOption true (Some name) (Some value) n (Some array) = Done s →
  cupsGetOption (Some name') s.1 s.2 = Done (Some (cstring value)).
Proof.
  intros Hname Hn Hlen Hcase.
  destruct (first_same_name name (entries n array))
    as [Hall|(l1 & o & l2 & Hent & Hl1 & Ho)].
  - rewrite cupsAddOption_fresh by done.
    destruct (n =? INT_MAX)%Z; [done|]. intros [= <-]. simpl.
    destruct (Z.leb_spec (n + 1) 0); [lia|].
    rewrite get_loop_found; [done| | |].
    + eapply Forall_impl; [exact Hall|]. intros o Ho Ho'. apply Ho.
      by apply (same_name_equiv name name').
    + apply (same_name_equiv name name'); [done|]. unfold same_name. simpl.
      rewrite strcasecmp_cstring_l. apply strcasecmp_refl.
    + rewrite entries_length by done. lia.
  - rewrite (cupsAddOption_replace _ _ _ _ _ _ _ _ Hname Hent Hl1 Ho).
    intros [= <-]. simpl.
    assert (length l1 < Z.to_nat n) as Hi.
    { assert (length (entries n array) ≤ Z.to_nat n) as H
        by (unfold entries; rewrite length_take; lia).
      rewrite Hent, length_app in H. simpl in H. lia. }
    destruct (Z.leb_spec n 0); [lia|].
    rewrite (entries_split _ _ _ Hent), <- app_assoc. simpl.
    rewrite insert_app_r_alt, Nat.sub_diag by done. simpl.
    rewrite get_loop_found; [done| | |lia].
    + eapply Forall_impl; [exact Hl1|]. intros o' Ho' Ho''. apply Ho'.
      by apply (same_name_equiv name name').
    + apply (same_name_equiv name name'); done.
Qed.

Lemma get_option_after_add_witness :
  cupsGetOption (Some (lit "copies")) 1
    (Some [cups_option.make (lit "Copies") (lit "2")]) = Done (Some (lit "2")).
Proof.
  apply (get_option_after_add (lit "Copies") (lit "copies") (lit "2") 0%Z []
           (1%Z, Some [cups_option.make (lit "Copies") (lit "2")])).
  - discriminate.
  - discriminate.
  - apply le_n.
  - reflexivity.
  - reflexivity.
Defined.

(** ** Every call of the parser comes to an end *)

(** Whatever the argument, the store and the allocator, the main loop of
    [cupsParseOptions] ends within as many rounds as the argument has
    bytes: the call never runs out of its loop budget. *)
Theorem parse_options_returns strdup_ok allocs arg n options :
  returns (cupsParseOptions strdup_ok allocs arg n options) = true.
Proof.
  pose proof (cupsParseOptions_terminates strdup_ok allocs arg n options) as H.
  by destruct (cupsParseOptions strdup_ok allocs arg n options).
Qed.

(** ** Arguments with no token *)

(** Parsing an argument that holds nothing but white space (the empty
    string too) leaves the count and the block of the store as they
    are. *)
Theorem blank_argument_adds_nothing strdup_ok allocs ws n array :
  forallb isspace ws = true → (0 ≤ n)%Z →
  cupsParseOptions strdup_ok allocs (Some ws) n (Some array) = Done (n, Some array).
Proof.
  intros Hws Hn. destruct strdup_ok.
  2:{ unfold cupsParseOptions. rewrite bool_decide_eq_false_2 by done.
      by destruct (Z.ltb_spec n 0); [lia|]. }
  rewrite cupsParseOptions_from, cstring_id by (done || by apply isspace_no_nul).
  rewrite <- (app_nil_r ws), leading_spaces_spaces by done.
  apply parse_from_end.
Qed.

Lemma blank_argument_adds_nothing_witness :
  cupsParseOptions true [] (Some (lit "  ")) 1
    (Some [cups_option.make (lit "a") (lit "1")]) =
  Done (1%Z, Some [cups_option.make (lit "a") (lit "1")]).
Proof.
  apply (blank_argument_adds_nothing true [] (lit "  ") 1%Z).
  - reflexivity.
  - discriminate.
Defined.

(** ** Values with no quote and no brace *)

Lemma bare_loop_cons before c s :
  bare_loop before (c :: s) =
  if negb (isspace c) && negb (Ascii.eqb c NUL) then
    if Ascii.eqb c backslash && negb (Ascii.eqb (hd NUL s) NUL)
    then bare_loop (before ++ [hd NUL s]) (tl s)
    else bare_loop (before ++ [c]) s
  else (before, c :: s).
Proof.
  destruct s as [|c1 s1]; simpl; [|done].
  destruct (_ && _); [|done]. by rewrite andb_false_r.
Qed.

Lemma isspace_backslash : isspace backslash = false.
Proof. reflexivity. Qed.

Lemma bare_loop_stop before rest :
  isspace (hd NUL rest) || Ascii.eqb (hd NUL rest) NUL = true →
  bare_loop before rest = (before, rest).
Proof.
  destruct rest as [|c rest]; [done|]. rewrite bare_loop_cons. simpl hd.
  by destruct (isspace c), (Ascii.eqb c NUL).
Qed.

(** The loop of a space-delimited value stops at the first white space
    no backslash covers, or at the end of the string. *)
Lemma bare_loop_token before raw rest :
  space_free raw = true → dangling raw = false →
  isspace (hd NUL rest) || Ascii.eqb (hd NUL rest) NUL = true →
  bare_loop before (raw ++ rest) = (before ++ unescape raw, rest).
Proof.
  intros Hfree Hdang Hrest. revert before Hfree Hdang.
  induction raw as [|c| c c1 s IH1 IH2] using list_pair_ind; intros before.
  - intros _ _. simpl app. rewrite app_nil_r. by apply bare_loop_stop.
  - intros Hf Hd. simpl in Hf, Hd. simpl app. rewrite bare_loop_cons. simpl unescape.
    destruct (Ascii.eqb c NUL); [done|].
    destruct (Ascii.eqb c backslash); [done|].
    apply andb_prop in Hf as [-> _]. cbn [negb andb]. by apply bare_loop_stop.
  - change ((c :: c1 :: s) ++ rest) with (c :: (c1 :: s) ++ rest).
    rewrite bare_loop_cons. simpl.
    destruct (Ascii.eqb_spec c NUL) as [|Hc0]; [done|].
    destruct (Ascii.eqb_spec c backslash) as [->|Hcb].
    + destruct (Ascii.eqb_spec c1 NUL) as [|Hc1]; [done|]. simpl. intros Hf Hd.
      rewrite IH1 by done. by rewrite <- app_assoc.
    + intros [Hsp Hf]%andb_prop Hd. rewrite Hsp. simpl.
      specialize (IH2 (before ++ [c]) Hf Hd). simpl in IH2.
      rewrite IH2. by rewrite <- app_assoc.
Qed.

Lemma space_free_no_nul s : space_free s = true → no_nul (unescape s).
Proof.
  induction s as [|c| c c1 s IH1 IH2] using list_pair_ind; simpl.
  - constructor.
  - destruct (Ascii.eqb_spec c NUL); [done|]. intros _.
    destruct (Ascii.eqb c backslash); by repeat constructor.
  - destruct (Ascii.eqb_spec c NUL); [done|].
    destruct (Ascii.eqb c backslash).
    + destruct (Ascii.eqb_spec c1 NUL); [done|]. simpl. intros H.
      constructor; [done|]. by apply IH1.
    + intros [_ H]%andb_prop. constructor; [done|]. by apply IH2.
Qed.

(** A round at a pair whose value is neither quoted nor a collection. *)
Lemma parse_round_bare alloc_ok before tok raw ws rest n options :
  tok ≠ [] → forallb name_char tok = true →
  opens_value (hd NUL (raw ++ ws ++ rest)) = false →
  space_free raw = true → dangling raw = false →
  forallb isspace ws = true → isspace (hd NUL rest) = false →
  (ws = [] → rest = []) →
  parse_round alloc_ok (before, tok ++ "="%char :: raw ++ ws ++ rest) n options =
  s ← cupsAddOption alloc_ok (Some tok) (Some (unescape raw)) n options;
  Done (Next (before ++ tok ++ NUL :: unescape raw ++ replicate (length ws) NUL, rest) s).
Proof.
  intros Htok Hname Hopen Hfree Hdang Hws Hrest Hend.
  pose proof (name_char_no_nul _ Hname) as Hnul.
  rewrite parse_round_value by done.
  unfold parse_value, peek, offset. cbn [fst snd].
  unfold opens_value in Hopen.
  apply orb_false_elim in Hopen as [[H1 H2]%orb_false_elim H3].
  rewrite H1, H2, H3. cbn [orb].
  rewrite bare_loop_token; [|done|done|].
  2:{ destruct ws as [|c ws]; [by rewrite Hend|].
      simpl in *. by apply andb_prop in Hws as [-> _]. }
  cbn [mbind outcome_bind fst snd].
  rewrite space_loop_spaces by done.
  rewrite cupsAddOption_cstring.
  assert (hd NUL (replicate (length ws) NUL ++ rest) = NUL) as Hmid.
  { destruct ws; [by rewrite Hend|done]. }
  set (b1 := (_ ++ replicate (length ws) NUL)).
  assert (b1 = before ++ tok ++ NUL :: unescape raw ++ replicate (length ws) NUL) as Hb1.
  { subst b1. by rewrite <- !app_assoc. }
  rewrite (cstring_at b1 rest _ before tok
             (NUL :: unescape raw ++ replicate (length ws) NUL)) by done.
  rewrite (cstring_at b1 rest _ (before ++ tok ++ [NUL]) (unescape raw)
             (replicate (length ws) NUL)).
  - by rewrite Hb1.
  - rewrite Hb1. by rewrite <- ?app_assoc.
  - by rewrite <- ?app_assoc.
  - by apply space_free_no_nul.
  - done.
Qed.

(** When the main loop stands at a pair [tok=] followed by a text [raw]
    that opens with neither a quote nor a brace and holds no white space
    but behind a backslash, it hands to [cupsAddOption] the name [tok]
    and, as the value, [raw] with every backslash that a byte follows
    collapsed into that byte, and goes on behind the white space that
    ends the value. *)
Theorem bare_value allocs before tok raw ws rest n options :
  tok ≠ [] → forallb name_char tok = true →
  opens_value (hd NUL (raw ++ ws ++ rest)) = false →
  space_free raw = true → dangling raw = false →
  forallb isspace ws = true → isspace (hd NUL rest) = false →
  (ws = [] → rest = []) →
  parse_from allocs (before, tok ++ "="%char :: raw ++ ws ++ rest) n options =
  s ← cupsAddOption (hd true allocs) (Some tok) (Some (unescape raw)) n options;
  parse_from (tl allocs)
    (before ++ tok ++ NUL :: unescape raw ++ replicate (length ws) NUL, rest) s.1 s.2.
Proof. intros. by apply parse_from_step, parse_round_bare. Qed.

Lemma bare_value_witness :
  parse_from [] ([], lit "job=a\ b c=d") 0 (Some []) =
  s ← cupsAddOption true (Some (lit "job")) (Some (lit "a b")) 0 (Some []);
  parse_from [] (lit "job" ++ NUL :: lit "a b" ++ [NUL], lit "c=d") s.1 s.2.
Proof.
  apply (bare_value [] [] (lit "job") (lit "a\ b") (lit " ") (lit "c=d") 0%Z (Some [])).
  - discriminate.
  - reflexivity.
  - reflexivity.
  - reflexivity.
  - reflexivity.
  - reflexivity.
  - reflexivity.
  - discriminate.
Defined.

(** ** New names go to the end of the store *)

(** [cupsAddOption] with a name that no entry bears, and memory to grow
    the store, returns the count plus one; the entries are the former
    ones, in their order, followed by one that holds copies of the name
    and of the value. *)
Theorem add_option_appends name value n array :
  hd NUL name ≠ NUL → (0 ≤ n < INT_MAX)%Z → Z.to_nat n ≤ length array →
  Forall (fun o => ¬ same_name name o) (entries n array) →
  cupsAddOption true (Some name) (Some value) n (Some array) =
  Done ((n + 1)%Z,
        Some (entries n array ++ [cups_option.make (cstring name) (cstring value)])).
Proof.
  intros Hname [Hn Hmax] Hlen Hall. rewrite cupsAddOption_fresh by done.
  by destruct (Z.eqb_spec n INT_MAX); [lia|].
Qed.

Lemma add_option_appends_witness :
  cupsAddOption true (Some (lit "b")) (Some (lit "2")) 1
    (Some [cups_option.make (lit "a") (lit "1")]) =
  Done (2%Z, Some [cups_option.make (lit "a") (lit "1");
                   cups_option.make (lit "b") (lit "2")]).
Proof.
  apply (add_option_appends (lit "b") (lit "2") 1%Z [cups_option.make (lit "a") (lit "1")]).
  - discriminate.
  - split; [discriminate|reflexivity].
  - apply le_n.
  - constructor; [discriminate|constructor].
Defined.

(** ** Looking up, adding and removing: how the calls compose *)

Lemma find_value_absent name l :
  Forall (fun o => ¬ same_name name o) l → find_value name l = None.
Proof.
  induction 1 as [|o l Ho _ IH]; simpl; [done|]. by rewrite decide_False.
Qed.

Lemma find_value_app name l1 l :
  Forall (fun o => ¬ same_name name o) l1 →
  find_value name (l1 ++ l) = find_value name l.
Proof.
  induction 1 as [|o l1 Ho _ IH]; simpl; [done|]. by rewrite decide_False.
Qed.

Lemma find_value_first name l1 o l2 :
  Forall (fun o' => ¬ same_name name o') l1 → same_name name o →
  find_value name (l1 ++ o :: l2) = Some (cups_option.value o).
Proof.
  intros Hl1 Ho. rewrite find_value_app by done. simpl. by rewrite decide_True.
Qed.

Lemma find_value_equiv name name' l :
  strcasecmp name' name = 0%Z → find_value name' l = find_value name l.
Proof.
  intros H. induction l as [|o l IH]; simpl; [done|].
  pose proof (same_name_equiv name name' o H) as Ho.
  destruct (decide (same_name name o)) as [Hs|Hs].
  - rewrite decide_True; [done|]. by apply Ho.
  - rewrite decide_False; [done|]. intros Hs'. apply Hs. by apply Ho.
Qed.

Lemma get_loop_none name i n at_i :
  (i ≤ n)%Z → Z.to_nat (n - i) ≤ length at_i →
  Forall (fun o => ¬ same_name name o) (take (Z.to_nat (n - i)) at_i) →
  get_loop name i n at_i = Done None.
Proof.
  revert i. induction at_i as [|o at_i IH]; intros i Hi Hlen Hall;
    rewrite get_loop_eq; simpl in *.
  - by destruct (Z.ltb_spec i n); [lia|].
  - destruct (Z.ltb_spec i n); [|done].
    destruct (Z.to_nat (n - i)) as [|k] eqn:Ek; [lia|]. simpl in Hall.
    apply Forall_cons in Hall as [Ho Hall]. unfold same_name in Ho.
    destruct (Z.eqb_spec (strcasecmp (cups_option.name o) name) 0); [done|].
    apply IH; [lia|lia|]. by replace (Z.to_nat (n - (i + 1))) with k by lia.
Qed.

(** [cupsGetOption] looks the name up in the entries. *)
Lemma cupsGetOption_find name n array :
  Z.to_nat n ≤ length array →
  cupsGetOption (Some name) n (Some array) = Done (find_value name (entries n array)).
Proof.
  intros Hlen. unfold cupsGetOption.
  destruct (Z.leb_spec n 0) as [Hn|Hn].
  { unfold entries. by replace (Z.to_nat n) with 0 by lia. }
  destruct (first_same_name name (entries n array))
    as [Hall|(l1 & o & l2 & Hent & Hl1 & Ho)].
  - rewrite get_loop_none, find_value_absent by (rewrite ?Z.sub_0_r; done || lia). done.
  - rewrite Hent, find_value_first by done.
    assert (length l1 < Z.to_nat n) as Hi.
    { assert (length (entries n array) ≤ Z.to_nat n) as H
        by (unfold entries; rewrite length_take; lia).
      rewrite Hent, length_app in H. simpl in H. lia. }
    rewrite (entries_split _ _ _ Hent), <- app_assoc. simpl.
    by rewrite get_loop_found by (done || lia).
Qed.

(** What [cupsAddOption] makes of the entries when it finds memory. *)
Lemma cupsAddOption_entries name value n array s :
  hd NUL name ≠ NUL → (0 ≤ n)%Z → Z.to_nat n ≤ length array →
  cupsAddOption true (Some name) (Some value) n (Some array) = Done s →
  ∃ array', s.2 = Some array' ∧ (0 ≤ s.1)%Z ∧ Z.to_nat s.1 ≤ length array' ∧
    ((Forall (fun o => ¬ same_name name o) (entries n array) ∧
      s.1 = (n + 1)%Z ∧
      entries s.1 array' =
        entries n array ++ [cups_option.make (cstring name) (cstring value)]) ∨
     (∃ l1 o l2, entries n array = l1 ++ o :: l2 ∧
        Forall (fun o' => ¬ same_name name o') l1 ∧ same_name name o ∧
        s.1 = n ∧
        entries s.1 array' =
          l1 ++ cups_option.make (cups_option.name o) (cstring value) :: l2)).
Proof.
  intros Hname Hn Hlen.
  destruct (first_same_name name (entries n array))
    as [Hall|(l1 & o & l2 & Hent & Hl1 & Ho)].
  - rewrite cupsAddOption_fresh by done.
    destruct (n =? INT_MAX)%Z; [done|]. intros [= <-]. simpl.
    pose proof (entries_length n array Hlen) as Hl.
    eexists. split; [done|]. split; [lia|]. split.
    { rewrite length_app. simpl. lia. }
    left. repeat split; [done|].
    unfold entries at 1. rewrite take_ge; [done|]. rewrite length_app. simpl. lia.
  - rewrite (cupsAddOption_replace _ _ _ _ _ _ _ _ Hname Hent Hl1 Ho).
    intros [= <-]. simpl. eexists. split; [done|]. split; [done|].
    rewrite length_insert. split; [done|].
    right. exists l1, o, l2. repeat split; try done.
    assert (length l1 < Z.to_nat n) as Hi.
    { rewrite <- (entries_length n array), Hent, length_app by done. simpl. lia. }
    unfold entries. rewrite take_insert_lt by done. fold (entries n array).
    rewrite Hent, insert_app_r_alt, Nat.sub_diag by done. done.
Qed.

(** What [cupsRemoveOption] makes of the entries. *)
Lemma cupsRemoveOption_entries name n array s :
  Z.to_nat n ≤ length array →
  cupsRemoveOption (Some name) n (Some array) = Done s →
  ∃ array', s.2 = Some array' ∧ Z.to_nat s.1 ≤ length array' ∧
    ((Forall (fun o => ¬ same_name name o) (entries n array) ∧
      s.1 = n ∧ entries s.1 array' = entries n array) ∨
     (∃ l1 o l2, entries n array = l1 ++ o :: l2 ∧
        Forall (fun o' => ¬ same_name name o') l1 ∧ same_name name o ∧
        s.1 = (n - 1)%Z ∧ entries s.1 array' = l1 ++ l2)).
Proof.
  intros Hlen.
  destruct (first_same_name name (entries n array))
    as [Hall|(l1 & o & l2 & Hent & Hl1 & Ho)].
  - rewrite cupsRemoveOption_absent by done. intros [= <-]. simpl.
    exists array. repeat split; [done|]. by left.
  - rewrite (cupsRemoveOption_found _ _ _ _ _ _ Hlen Hent Hl1 Ho). intros [= <-].
    assert (length l1 + S (length l2) = Z.to_nat n) as Hl.
    { rewrite <- (entries_length n array), Hent, length_app by done. done. }
    simpl. eexists. split; [done|]. split.
    { rewrite !length_app, length_drop. lia. }
    right. exists l1, o, l2. repeat split; try done.
    unfold entries at 1. rewrite app_assoc, take_app_length'; [done|].
    rewrite length_app. lia.
Qed.

Lemma not_same_name_equiv name name' o :
  strcasecmp name' name ≠ 0%Z → same_name name o → ¬ same_name name' o.
Proof.
  unfold same_name. intros Hne Ho Ho'. apply Hne.
  eapply strcasecmp_trans_0; [|exact Ho]. by apply strcasecmp_sym_0.
Qed.

(** [cupsGetOption] returns the value of the first entry that bears the
    name, letter case apart.  It returns the null pointer when no entry
    does, and also when the name or the block is null or the count is
    not positive. *)
Theorem get_option_first_match :
  (∀ name n array l1 o l2,
     entries n array = l1 ++ o :: l2 →
     Forall (fun o' => ¬ same_name name o') l1 → same_name name o →
     cupsGetOption (Some name) n (Some array) = Done (Some (cups_option.value o))) ∧
  (∀ name n array,
     Z.to_nat n ≤ length array →
     Forall (fun o => ¬ same_name name o) (entries n array) →
     cupsGetOption (Some name) n (Some array) = Done None) ∧
  (∀ name n options,
     name = None ∨ options = None ∨ (n ≤ 0)%Z →
     cupsGetOption name n options = Done None).
Proof.
  split; [|split].
  - intros name n array l1 o l2 Hent Hl1 Ho. unfold cupsGetOption.
    assert (length l1 < Z.to_nat n) as Hi.
    { assert (length (entries n array) ≤ Z.to_nat n) as H
        by (unfold entries; rewrite length_take; lia).
      rewrite Hent, length_app in H. simpl in H. lia. }
    destruct (Z.leb_spec n 0); [lia|].
    rewrite (entries_split _ _ _ Hent), <- app_assoc. simpl.
    by rewrite get_loop_found by (done || lia).
  - intros name n array Hlen Hall.
    by rewrite cupsGetOption_find, find_value_absent.
  - intros name n options H. unfold cupsGetOption.
    destruct name as [name|], options as [array|]; try done.
    destruct H as [|[|H]]; try done. by destruct (Z.leb_spec n 0); [|lia].
Qed.

Lemma get_option_first_match_witness :
  cupsGetOption (Some (lit "SIDES")) 3
    (Some [cups_option.make (lit "copies") (lit "2");
           cups_option.make (lit "sides") (lit "one");
           cups_option.make (lit "Sides") (lit "two")]) = Done (Some (lit "one")).
Proof.
  apply (proj1 get_option_first_match (lit "SIDES") 3%Z _
           [cups_option.make (lit "copies") (lit "2")]
           (cups_option.make (lit "sides") (lit "one"))
           [cups_option.make (lit "Sides") (lit "two")]).
  - reflexivity.
  - constructor; [discriminate|constructor].
  - reflexivity.
Defined.

(** Adding an option under one name leaves what [cupsGetOption] returns
    for every other name as it was (when [cupsAddOption] finds the memory
    it asks for). *)
Theorem add_option_keeps_other_values name name' value n array s :
  (0 ≤ n)%Z → Z.to_nat n ≤ length array →
  strcasecmp name' name ≠ 0%Z →
  cupsAddOption true (Some name) (Some value) n (Some array) = Done s →
  cupsGetOption (Some name') s.1 s.2 = cupsGetOption (Some name') n (Some array).
Proof.
  intros Hn Hlen Hne Hadd.
  destruct (Ascii.eqb_spec (hd NUL name) NUL) as [Hname|Hname].
  { rewrite cupsAddOption_empty_name in Hadd by done. by injection Hadd as <-. }
  destruct (cupsAddOption_entries _ _ _ _ _ Hname Hn Hlen Hadd)
    as (array' & Hs2 & Hs1 & Hlen' & Hcases).
  rewrite Hs2, !cupsGetOption_find by done. f_equal.
  assert (¬ same_name name' (cups_option.make (cstring name) (cstring value))) as Hnew.
  { unfold same_name. simpl. rewrite strcasecmp_cstring_l.
    intros H. apply Hne. by apply strcasecmp_sym_0. }
  destruct Hcases as [(Hall & _ & ->)|(l1 & o & l2 & Hent & Hl1 & Ho & _ & ->)].
  - generalize (entries n array). intros l.
    induction l as [|o l IH]; simpl; [by rewrite decide_False|].
    destruct (decide (same_name name' o)); [done|apply IH].
  - rewrite Hent. pose proof (not_same_name_equiv _ _ _ Hne Ho) as Ho'.
    clear Hent. induction l1 as [|o1 l1 IH]; simpl.
    + by rewrite !decide_False.
    + apply Forall_cons in Hl1 as [_ Hl1].
      destruct (decide (same_name name' o1)); [done|by apply IH].
Qed.

Lemma add_option_keeps_other_values_witness :
  cupsGetOption (Some (lit "b")) 2
    (Some [cups_option.make (lit "a") (lit "9"); cups_option.make (lit "b") (lit "2")]) =
  cupsGetOption (Some (lit "b")) 2
    (Some [cups_option.make (lit "a") (lit "1"); cups_option.make (lit "b") (lit "2")]).
Proof.
  apply (add_option_keeps_other_values (lit "A") (lit "b") (lit "9") 2%Z
           [cups_option.make (lit "a") (lit "1"); cups_option.make (lit "b") (lit "2")]
           (2%Z, Some [cups_option.make (lit "a") (lit "9");
                       cups_option.make (lit "b") (lit "2")])).
  - discriminate.
  - apply le_n.
  - discriminate.
  - reflexivity.
Defined.

(** In a store whose entries bear distinct names, an option that
    [cupsRemoveOption] has removed is gone: [cupsGetOption] returns the
    null pointer for its name, in any letter case. *)
Theorem get_option_after_remove name name' n array s :
  Z.to_nat n ≤ length array → names_distinct (entries n array) →
  strcasecmp name' name = 0%Z →
  cupsRemoveOption (Some name) n (Some array) = Done s →
  cupsGetOption (Some name') s.1 s.2 = Done None.
Proof.
  intros Hlen Hdist Hcase Hrem.
  destruct (cupsRemoveOption_entries _ _ _ _ Hlen Hrem)
    as (array' & Hs2 & Hlen' & Hcases).
  rewrite Hs2, cupsGetOption_find by done. f_equal.
  rewrite (find_value_equiv name name') by done.
  destruct Hcases as [(Hall & _ & ->)|(l1 & o & l2 & Hent & Hl1 & Ho & _ & ->)].
  - by apply find_value_absent.
  - apply find_value_absent, Forall_app. split; [done|].
    apply Forall_forall. intros o' Ho' Hs'.
    apply list_elem_of_lookup in Ho' as [k Hk].
    rewrite Hent in Hdist.
    assert (length l1 = length l1 + S k) as E; [|lia].
    apply (Hdist _ _ o o').
    + by rewrite list_lookup_middle.
    + rewrite lookup_app_r by lia.
      by replace (length l1 + S k - length l1) with (S k) by lia.
    + unfold same_name in *. eapply strcasecmp_trans_0; [exact Ho|].
      by apply strcasecmp_sym_0.
Qed.

Lemma get_option_after_remove_witness :
  cupsGetOption (Some (lit "COPIES")) 1
    (Some [cups_option.make (lit "sides") (lit "two");
           cups_option.make (lit "sides") (lit "two")]) = Done None.
Proof.
  apply (get_option_after_remove (lit "copies") (lit "COPIES") 2%Z
           [cups_option.make (lit "Copies") (lit "2");
            cups_option.make (lit "sides") (lit "two")]
           (1%Z, Some [cups_option.make (lit "sides") (lit "two");
                       cups_option.make (lit "sides") (lit "two")])).
  - apply le_n.
  - intros [|[|i]] [|[|j]] oi oj Hi Hj; try discriminate; try reflexivity.
    + injection Hi as <-. injection Hj as <-. discriminate.
    + injection Hi as <-. injection Hj as <-. discriminate.
  - reflexivity.
  - reflexivity.
Defined.

(** Removing an option under one name leaves what [cupsGetOption]
    returns for every other name as it was. *)
Theorem remove_option_keeps_other_values name name' n array s :
  Z.to_nat n ≤ length array →
  strcasecmp name' name ≠ 0%Z →
  cupsRemoveOption (Some name) n (Some array) = Done s →
  cupsGetOption (Some name') s.1 s.2 = cupsGetOption (Some name') n (Some array).
Proof.
  intros Hlen Hne Hrem.
  destruct (cupsRemoveOption_entries _ _ _ _ Hlen Hrem)
    as (array' & Hs2 & Hlen' & Hcases).
  rewrite Hs2, !cupsGetOption_find by done. f_equal.
  destruct Hcases as [(Hall & _ & ->)|(l1 & o & l2 & Hent & Hl1 & Ho & _ & ->)]; [done|].
  rewrite Hent. pose proof (not_same_name_equiv _ _ _ Hne Ho) as Ho'.
  clear Hent. induction l1 as [|o1 l1 IH]; simpl.
  - by rewrite decide_False.
  - apply Forall_cons in Hl1 as [_ Hl1].
    destruct (decide (same_name name' o1)); [done|by apply IH].
Qed.

Lemma remove_option_keeps_other_values_witness :
  cupsGetOption (Some (lit "b")) 1
    (Some [cups_option.make (lit "b") (lit "2"); cups_option.make (lit "b") (lit "2")]) =
  cupsGetOption (Some (lit "b")) 2
    (Some [cups_option.make (lit "a") (lit "1"); cups_option.make (lit "b") (lit "2")]).
Proof.
  apply (remove_option_keeps_other_values (lit "a") (lit "b") 2%Z
           [cups_option.make (lit "a") (lit "1"); cups_option.make (lit "b") (lit "2")]
           (1%Z, Some [cups_option.make (lit "b") (lit "2");
                       cups_option.make (lit "b") (lit "2")])).
  - apply le_n.
  - discriminate.
  - reflexivity.
Defined.

(** Adding an option under a new name and removing it again gives back
    the count and the entries there were. *)
Theorem add_then_remove name value n array :
  hd NUL name ≠ NUL → (0 ≤ n < INT_MAX)%Z → Z.to_nat n ≤ length array →
  Forall (fun o => ¬ same_name name o) (entries n array) →
  ∃ array',
    (s ← cupsAddOption true (Some name) (Some value) n (Some array);
     cupsRemoveOption (Some name) s.1 s.2) = Done (n, Some array') ∧
    entries n array' = entries n array.
Proof.
  intros Hname [Hn Hmax] Hlen Hall.
  rewrite cupsAddOption_fresh by done.
  destruct (Z.eqb_spec n INT_MAX); [lia|]. simpl.
  pose proof (entries_length n array Hlen) as Hl.
  set (new := cups_option.make (cstring name) (cstring value)).
  assert (same_name name new) as Hnew.
  { unfold same_name. simpl. rewrite strcasecmp_cstring_l. apply strcasecmp_refl. }
  rewrite (cupsRemoveOption_found name (n + 1) _ (entries n array) new []); try done.
  - eexists. split; [by replace (n + 1 - 1)%Z with n by lia|].
    unfold entries at 1. rewrite take_app_length'; [done|lia].
  - rewrite length_app. simpl. lia.
  - unfold entries at 1. rewrite take_ge; [done|]. rewrite length_app. simpl. lia.
Qed.

Lemma add_then_remove_witness :
  ∃ array',
    (s ← cupsAddOption true (Some (lit "b")) (Some (lit "2")) 1
           (Some [cups_option.make (lit "a") (lit "1")]);
     cupsRemoveOption (Some (lit "b")) s.1 s.2) = Done (1%Z, Some array') ∧
    entries 1 array' = entries 1 [cups_option.make (lit "a") (lit "1")].
Proof.
  apply (add_then_remove (lit "b") (lit "2") 1%Z [cups_option.make (lit "a") (lit "1")]).
  - discriminate.
  - split; [discriminate|reflexivity].
  - apply le_n.
  - constructor; [discriminate|constructor].
Defined.

(** ** The parser never drops or moves an entry *)

Lemma cupsAddOption_found_memory name value n options s :
  cupsAddOption true name value n options = Done s →
  s = (n, options) ∨
  (∃ array nm v, options = Some array ∧ (0 ≤ n)%Z ∧ Z.to_nat n ≤ length array ∧
     s = ((n + 1)%Z, Some (entries n array ++ [cups_option.make (cstring nm) v]))) ∨
  (∃ array i v o, options = Some array ∧ i < Z.to_nat n ∧ array !! i = Some o ∧
     s = (n, Some (<[i := cups_option.make (cups_option.name o) v]> array))).
Proof.
  unfold cupsAddOption.
  destruct name as [name|], value as [value|], options as [array|];
    try (intros [= <-]; by left).
  destruct (Ascii.eqb (hd NUL name) NUL); simpl; [intros [= <-]; by left|].
  destruct (Z.ltb_spec n 0); simpl; [intros [= <-]; by left|].
  destruct (add_loop name 0 n array) as [i| |] eqn:Hloop; simpl; try done.
  apply add_loop_Done in Hloop as (Hi & Hall & Hlen & Hlt & Hge).
  rewrite Z.sub_0_r in *.
  destruct (Z.leb_spec n i) as [Hni|Hni].
  - specialize (Hge Hni). assert (i = n) as -> by lia.
    rewrite grown_block. destruct (n =? INT_MAX)%Z; [done|]. intros [= <-].
    right; left. exists array, name, (cstring value).
    repeat split; done.
  - intros [= <-]. destruct (Hlt Hni) as (o & Ho & _).
    right; right. exists array, (Z.to_nat i), (cstring value), o.
    repeat split; try done; try lia.
    do 2 f_equal. apply list_eq. intros k.
    rewrite list_lookup_alter, list_lookup_insert.
    destruct (decide (Z.to_nat i = k)) as [<-|]; [|by rewrite ?decide_False by lia].
    rewrite Ho. simpl. apply lookup_lt_Some in Ho. by rewrite decide_True by lia.
Qed.

Lemma cupsAddOption_names_prefix name value n options s :
  cupsAddOption true name value n options = Done s →
  names (store_entries (n, options)) `prefix_of` names (store_entries s).
Proof.
  intros [->|[(array & nm & v & -> & Hn & Hlen & ->)
             |(array & i & v & o & -> & Hi & Ho & ->)]]%cupsAddOption_found_memory.
  - done.
  - unfold store_entries. simpl.
    pose proof (entries_length n array Hlen) as Hl.
    unfold entries at 2. rewrite take_ge by (rewrite length_app; simpl; lia).
    unfold names. rewrite fmap_app. by apply prefix_app_r.
  - unfold store_entries. simpl. unfold entries, names.
    rewrite take_insert_lt by done. rewrite list_fmap_insert. simpl.
    rewrite list_insert_id; [done|].
    rewrite list_lookup_fmap, lookup_take_lt by done. by rewrite Ho.
Qed.

Lemma parse_loop_names_prefix fuel b n options s :
  parse_loop fuel [] b n options = Done s →
  names (store_entries (n, options)) `prefix_of` names (store_entries s).
Proof.
  revert b n options. induction fuel as [|fuel IH]; intros b n options; [done|].
  simpl. destruct (parse_round true b n options) as [[b' s'|s']| |] eqn:E;
    simpl; try done.
  - apply parse_round_Next in E as [_ (nm & v & Hadd)].
    apply cupsAddOption_names_prefix in Hadd. intros H. apply IH in H.
    destruct s' as [n' options']. by etrans.
  - apply parse_round_Leave in E as ->. by intros [= <-].
Qed.

(** When no allocation fails, [cupsParseOptions] leaves every entry of
    the store in its slot, under its name: the names of the entries
    before the call are the first names of the entries after it.  (The
    parser gives new values to these entries and puts new entries behind
    them; it never removes or moves one.) *)
Theorem parse_options_keeps_entries_in_place strdup_ok arg n options s :
  cupsParseOptions strdup_ok [] arg n options = Done s →
  names (store_entries (n, options)) `prefix_of` names (store_entries s).
Proof.
  unfold cupsParseOptions. destruct arg as [arg|]; [|by intros [= <-]].
  destruct options as [array|].
  2:{ rewrite bool_decide_eq_true_2 by done. by intros [= <-]. }
  rewrite bool_decide_eq_false_2 by done. cbn [orb].
  destruct (Z.ltb_spec n 0).
  { intros [= <-]. unfold store_entries, entries. simpl.
    by replace (Z.to_nat n) with 0 by lia. }
  destruct strdup_ok; cbn [negb]; [|by intros [= <-]].
  apply parse_loop_names_prefix.
Qed.

Lemma parse_options_keeps_entries_in_place_witness :
  names (store_entries (2%Z, Some [cups_option.make (lit "a") (lit "1");
                                   cups_option.make (lit "b") (lit "2")]))
  `prefix_of`
  names (store_entries (3%Z, Some [cups_option.make (lit "a") (lit "1");
                                   cups_option.make (lit "b") (lit "true");
                                   cups_option.make (lit "c") (lit "3")])).
Proof.
  apply (parse_options_keeps_entries_in_place true (Some (lit "c=3 B")) 2%Z
           (Some [cups_option.make (lit "a") (lit "1");
                  cups_option.make (lit "b") (lit "2")])
           (3%Z, Some [cups_option.make (lit "a") (lit "1");
                       cups_option.make (lit "b") (lit "true");
                       cups_option.make (lit "c") (lit "3")])).
  vm_compute. reflexivity.
Defined.

(** ** The parser reads the string from the cursor on, and nothing else *)

(** Each loop adds to the bytes below the cursor and looks at none of
    them. *)
Lemma leading_spaces_shift before after :
  leading_spaces before after =
  (before ++ (leading_spaces [] after).1, (leading_spaces [] after).2).
Proof.
  revert before. induction after as [|c s IH]; intros before; simpl.
  - by rewrite app_nil_r.
  - destruct (isspace c); [|by rewrite app_nil_r].
    rewrite (IH (before ++ [c])), (IH [c]). simpl. by rewrite <- app_assoc.
Qed.

Lemma name_loop_shift before after :
  name_loop before after =
  (before ++ (name_loop [] after).1, (name_loop [] after).2).
Proof.
  revert before. induction after as [|c s IH]; intros before; simpl.
  - by rewrite app_nil_r.
  - destruct (_ && _); [|by rewrite app_nil_r].
    rewrite (IH (before ++ [c])), (IH [c]). simpl. by rewrite <- app_assoc.
Qed.

Lemma space_loop_shift before after :
  space_loop before after =
  (before ++ (space_loop [] after).1, (space_loop [] after).2).
Proof.
  revert before. induction after as [|c s IH]; intros before; simpl.
  - by rewrite app_nil_r.
  - destruct (isspace c); [|by rewrite app_nil_r].
    rewrite (IH (before ++ [NUL])), (IH [NUL]). simpl. by rewrite <- app_assoc.
Qed.

Lemma quoted_loop_shift quote before after :
  quoted_loop quote before after =
  (before ++ (quoted_loop quote [] after).1, (quoted_loop quote [] after).2).
Proof.
  revert before. induction after as [|c| c c1 s IH1 IH2] using list_pair_ind;
    intros before.
  - simpl. by rewrite app_nil_r.
  - rewrite (quoted_loop_cons quote before), (quoted_loop_cons quote []). cbn [hd tl quoted_loop app].
    repeat destruct (_ && _); simpl; by rewrite ?app_nil_r.
  - rewrite (quoted_loop_cons quote before), (quoted_loop_cons quote []). cbn [hd tl].
    destruct (negb _ && negb _); [|by rewrite app_nil_r].
    destruct (_ && _).
    + rewrite (IH1 (before ++ [c1])), (IH1 ([] ++ [c1])). simpl. by rewrite <- app_assoc.
    + rewrite (IH2 (before ++ [c])), (IH2 ([] ++ [c])). simpl. by rewrite <- app_assoc.
Qed.

Lemma bare_loop_shift before after :
  bare_loop before after =
  (before ++ (bare_loop [] after).1, (bare_loop [] after).2).
Proof.
  revert before. induction after as [|c| c c1 s IH1 IH2] using list_pair_ind;
    intros before.
  - simpl. by rewrite app_nil_r.
  - rewrite (bare_loop_cons before), (bare_loop_cons []). cbn [hd tl bare_loop app].
    repeat destruct (_ && _); simpl; by rewrite ?app_nil_r.
  - rewrite (bare_loop_cons before), (bare_loop_cons []). cbn [hd tl].
    destruct (negb _ && negb _); [|by rewrite app_nil_r].
    destruct (_ && _).
    + rewrite (IH1 (before ++ [c1])), (IH1 ([] ++ [c1])). simpl. by rewrite <- app_assoc.
    + rewrite (IH2 (before ++ [c])), (IH2 ([] ++ [c])). simpl. by rewrite <- app_assoc.
Qed.

Lemma collection_loop_shift depth before after :
  collection_loop depth before after =
  b ← collection_loop depth [] after; Done (before ++ b.1, b.2).
Proof.
  revert depth before. induction after as [|c| c c1 s IH1 IH2] using list_pair_ind;
    intros depth before.
  - simpl. by rewrite app_nil_r.
  - rewrite (collection_loop_cons depth before), (collection_loop_cons depth []). cbn [hd tl collection_loop app].
    repeat match goal with |- context [if ?b then _ else _] => destruct b end;
      simpl; by rewrite ?app_nil_r.
  - rewrite (collection_loop_cons depth before), (collection_loop_cons depth []). cbn [hd tl].
    destruct (Ascii.eqb c NUL); [simpl; by rewrite app_nil_r|].
    destruct (Ascii.eqb c "{").
    { destruct (depth =? INT_MAX)%Z; [done|].
      rewrite (IH2 _ (before ++ [c])), (IH2 _ ([] ++ [c])).
      destruct (collection_loop _ [] (c1 :: s)); simpl; by rewrite <- ?app_assoc. }
    destruct (Ascii.eqb c "}").
    { destruct (depth =? INT_MIN)%Z; [done|].
      destruct (depth - 1 =? 0)%Z.
      - destruct (negb _); [done|].
        rewrite (IH1 _ (before ++ [c; c1])), (IH1 _ ([] ++ [c; c1])).
        destruct (collection_loop _ [] s); simpl; by rewrite <- ?app_assoc.
      - rewrite (IH2 _ (before ++ [c])), (IH2 _ ([] ++ [c])).
        destruct (collection_loop _ [] (c1 :: s)); simpl; by rewrite <- ?app_assoc. }
    destruct (_ && _).
    + rewrite (IH1 _ (before ++ [c1])), (IH1 _ ([] ++ [c1])).
      destruct (collection_loop _ [] s); simpl; by rewrite <- ?app_assoc.
    + rewrite (IH2 _ (before ++ [c])), (IH2 _ ([] ++ [c])).
      destruct (collection_loop _ [] (c1 :: s)); simpl; by rewrite <- ?app_assoc.
Qed.

Lemma bytes_at_shift pre x r k :
  bytes_at (pre ++ x, r) (length pre + k) = bytes_at (x, r) k.
Proof.
  unfold bytes_at. cbn [fst snd]. by rewrite <- app_assoc, <- drop_drop, drop_app_length.
Qed.

Lemma bytes_at_shift_0 pre x r :
  bytes_at (pre ++ x, r) (length pre) = bytes_at (x, r) 0.
Proof. rewrite <- (Nat.add_0_r (length pre)). apply bytes_at_shift. Qed.

Lemma close_value_shift pre x r :
  close_value (pre ++ x, r) = (pre ++ (close_value (x, r)).1, (close_value (x, r)).2).
Proof.
  unfold close_value, peek, terminate. cbn [fst snd].
  destruct (negb _); cbn [fst snd]; by rewrite <- ?app_assoc.
Qed.

Lemma parse_value_shift pre x v :
  parse_value (pre ++ x, v) =
  '(k, b) ← parse_value (x, v); Done (length pre + k, (pre ++ b.1, b.2)).
Proof.
  unfold parse_value, peek, offset, advance. cbn [fst snd].
  destruct (_ || _).
  - destruct v as [|c s]; cbn [fst snd hd].
    + simpl quoted_loop. rewrite close_value_shift. simpl. by rewrite length_app.
    + rewrite (quoted_loop_shift c ((pre ++ x) ++ [c])), (quoted_loop_shift c (x ++ [c])).
      destruct (quoted_loop c [] s) as [d r]. cbn [fst snd].
      rewrite <- !app_assoc, close_value_shift. simpl.
      by rewrite (length_app pre).
  - destruct (Ascii.eqb (hd NUL v) "{").
    + rewrite (collection_loop_shift 1 (pre ++ x)), (collection_loop_shift 1 x).
      destruct (collection_loop 1 [] v) as [[d r]| |]; simpl; try done.
      rewrite <- !app_assoc, close_value_shift. simpl. by rewrite length_app.
    + rewrite (bare_loop_shift (pre ++ x)), (bare_loop_shift x).
      destruct (bare_loop [] v) as [d r]. simpl.
      by rewrite length_app, <- !app_assoc.
Qed.

Lemma parse_round_shift alloc_ok pre after n options :
  parse_round alloc_ok (pre, after) n options =
  f ← parse_round alloc_ok ([], after) n options;
  Done (match f with
        | Next b s => Next (pre ++ b.1, b.2) s
        | Leave s => Leave s
        end).
Proof.
  unfold parse_round, peek, offset. cbn [fst snd].
  destruct (Ascii.eqb (hd NUL after) NUL); [done|].
  rewrite (name_loop_shift pre). destruct (name_loop [] after) as [d1 r1].
  cbn [fst snd length].
  replace (length (pre ++ d1) =? length pre) with (length d1 =? 0).
  2:{ rewrite length_app. destruct d1; simpl.
      - by rewrite Nat.add_0_r, Nat.eqb_refl.
      - symmetry. apply Nat.eqb_neq. lia. }
  destruct (length d1 =? 0); [done|].
  rewrite (space_loop_shift (pre ++ d1)), (space_loop_shift d1).
  destruct (space_loop [] r1) as [d2 r2]. cbn [fst snd].
  rewrite <- !app_assoc.
  destruct (negb (Ascii.eqb (hd NUL r2) "=")).
  - rewrite !bytes_at_shift, !bytes_at_shift_0.
    by destruct (if (_ =? 0)%Z then _ else _).
  - unfold terminate. cbn [fst snd].
    rewrite <- !app_assoc, parse_value_shift.
    destruct (parse_value (d1 ++ d2 ++ [NUL], tl r2)) as [[k [d3 r3]]| |];
      cbn [mbind outcome_bind fst snd]; try done.
    rewrite (space_loop_shift (pre ++ d3)), (space_loop_shift d3).
    destruct (space_loop [] r3) as [d4 r4]. cbn [fst snd].
    rewrite <- !app_assoc, bytes_at_shift, bytes_at_shift_0.
    by destruct (cupsAddOption _ _ _ _ _).
Qed.

Lemma parse_loop_shift fuel allocs pre after n options :
  parse_loop fuel allocs (pre, after) n options =
  parse_loop fuel allocs ([], after) n options.
Proof.
  revert allocs pre after n options.
  induction fuel as [|fuel IH]; intros allocs pre after n options; [done|].
  simpl. rewrite parse_round_shift.
  destruct (parse_round (hd true allocs) ([], after) n options) as [[[d r] s|s]| |];
    simpl; try done.
  by rewrite (IH _ (pre ++ d)), (IH _ d).
Qed.

(** The main loop takes nothing from the bytes it has passed. *)
Lemma parse_from_shift allocs pre after n options :
  parse_from allocs (pre, after) n options = parse_from allocs ([], after) n options.
Proof. apply parse_loop_shift. Qed.

(** The call, for a store that is there: the main loop on the argument
    less its leading white space. *)
Lemma cupsParseOptions_loop allocs arg n array :
  (0 ≤ n)%Z →
  cupsParseOptions true allocs (Some arg) n (Some array) =
  parse_from allocs ([], (leading_spaces [] (cstring arg)).2) n (Some array).
Proof.
  intros Hn. rewrite cupsParseOptions_from by done.
  destruct (leading_spaces [] (cstring arg)) as [d r]. apply parse_from_shift.
Qed.

Lemma leading_spaces_app before ws after :
  forallb isspace ws = true →
  leading_spaces before (ws ++ after) = leading_spaces (before ++ ws) after.
Proof.
  revert before. induction ws as [|c ws IH]; intros before Hws; simpl in *.
  - by rewrite app_nil_r.
  - apply andb_prop in Hws as [-> Hws]. rewrite IH by done. by rewrite <- app_assoc.
Qed.

Lemma leading_spaces_none after :
  isspace (hd NUL after) = false → leading_spaces [] after = ([], after).
Proof. destruct after as [|c s]; simpl; [done|]. by intros ->. Qed.

Lemma name_char_not_space tok rest :
  tok ≠ [] → forallb name_char tok = true → isspace (hd NUL (tok ++ rest)) = false.
Proof.
  destruct tok as [|c tok]; [done|]. simpl. intros _ [Hc _]%andb_prop.
  unfold name_char in Hc. by destruct (isspace c).
Qed.

Lemma cupsAddOption_store alloc_ok name value n array s :
  (0 ≤ n)%Z →
  cupsAddOption alloc_ok name value n (Some array) = Done s →
  (0 ≤ s.1)%Z ∧ ∃ array', s.2 = Some array'.
Proof.
  intros Hn [->|[(a & _ & _ & ->)|[(a & nm & v & _ & _ & _ & _ & _ & ->)
                                  |(a & i & v & o & _ & _ & _ & ->)]]]%cupsAddOption_cases;
    simpl; split; eauto; lia.
Qed.

(** The main loop on what is left of the argument is a call of its own. *)
Lemma parse_from_rest allocs pre rest n array :
  (0 ≤ n)%Z → isspace (hd NUL rest) = false →
  parse_from allocs (pre, cstring rest) n (Some array) =
  cupsParseOptions true allocs (Some rest) n (Some array).
Proof.
  intros Hn Hrest. rewrite cupsParseOptions_loop, leading_spaces_none by
    (done || by rewrite hd_cstring).
  apply parse_from_shift.
Qed.

Lemma parse_options_step allocs arg rest b1 name value n array :
  (0 ≤ n)%Z → isspace (hd NUL arg) = false → isspace (hd NUL rest) = false →
  parse_round (hd true allocs) ([], cstring arg) n (Some array) =
    (s ← cupsAddOption (hd true allocs) name value n (Some array);
     Done (Next (b1, cstring rest) s)) →
  cupsParseOptions true allocs (Some arg) n (Some array) =
  s ← cupsAddOption (hd true allocs) name value n (Some array);
  cupsParseOptions true (tl allocs) (Some rest) s.1 s.2.
Proof.
  intros Hn Harg Hrest Hround.
  rewrite cupsParseOptions_loop, leading_spaces_none by (done || by rewrite hd_cstring).
  cbn [snd]. rewrite (parse_from_step _ _ _ _ _ _ _ Hround).
  destruct (cupsAddOption _ _ _ _ _) as [[n' o']| |] eqn:Hadd; simpl; try done.
  apply cupsAddOption_store in Hadd as [Hn' [array' Ho']]; [|done].
  simpl in *. subst o'. by apply parse_from_rest.
Qed.

Lemma quote_free_no_nul quote s : quote_free quote s = true → no_nul s.
Proof.
  induction s as [|c| c c1 s IH1 IH2] using list_pair_ind; simpl.
  - constructor.
  - destruct (Ascii.eqb_spec c NUL); [done|]. by repeat constructor.
  - destruct (Ascii.eqb_spec c NUL); [done|].
    destruct (Ascii.eqb c backslash).
    + destruct (Ascii.eqb_spec c1 NUL); [done|]. simpl. intros H.
      repeat (constructor; [done|]). by apply IH1.
    + intros [_ H]%andb_prop. constructor; [done|]. by apply IH2.
Qed.

Lemma space_free_no_nul_text s : space_free s = true → no_nul s.
Proof.
  induction s as [|c| c c1 s IH1 IH2] using list_pair_ind; simpl.
  - constructor.
  - destruct (Ascii.eqb_spec c NUL); [done|]. by repeat constructor.
  - destruct (Ascii.eqb_spec c NUL); [done|].
    destruct (Ascii.eqb c backslash).
    + destruct (Ascii.eqb_spec c1 NUL); [done|]. simpl. intros H.
      repeat (constructor; [done|]). by apply IH1.
    + intros [_ H]%andb_prop. constructor; [done|]. by apply IH2.
Qed.

Lemma cstring_prefix arg p rest :
  arg = p ++ rest → no_nul p → cstring arg = p ++ cstring rest.
Proof. intros -> Hp. by apply cstring_app. Qed.

Lemma hd_app_cstring ws rest : hd NUL (ws ++ cstring rest) = hd NUL (ws ++ rest).
Proof. destruct ws; [apply hd_cstring|done]. Qed.

Lemma parse_options_boolean_step allocs tok ws rest n array :
  tok ≠ [] → forallb name_char tok = true →
  forallb isspace ws = true → name_char (hd NUL (ws ++ rest)) = false →
  isspace (hd NUL rest) = false → Ascii.eqb (hd NUL rest) "=" = false →
  (0 ≤ n)%Z →
  cupsParseOptions true allocs (Some (tok ++ ws ++ rest)) n (Some array) =
  s ← cupsAddOption (hd true allocs)
        (Some (if no_prefix tok then drop 2 tok else tok))
        (Some (lit (if no_prefix tok then "false" else "true"))) n (Some array);
  cupsParseOptions true (tl allocs) (Some rest) s.1 s.2.
Proof.
  intros Htok Hname Hws Hend Hsp Heq Hn.
  eapply parse_options_step; [done|by apply name_char_not_space|done|].
  rewrite (cstring_prefix _ (tok ++ ws) rest).
  - rewrite <- app_assoc.
    apply parse_round_boolean; rewrite ?hd_app_cstring, ?hd_cstring; done.
  - by rewrite <- app_assoc.
  - apply Forall_app. split; [by apply name_char_no_nul|by apply isspace_no_nul].
Qed.

Lemma parse_options_quoted_step allocs tok quote raw ws rest n array :
  tok ≠ [] → forallb name_char tok = true →
  quote = squote ∨ quote = dquote →
  quote_free quote raw = true → dangling raw = false →
  forallb isspace ws = true → isspace (hd NUL rest) = false →
  (0 ≤ n)%Z →
  cupsParseOptions true allocs
    (Some (tok ++ "="%char :: quote :: raw ++ quote :: ws ++ rest)) n (Some array) =
  s ← cupsAddOption (hd true allocs) (Some tok) (Some (unescape raw)) n (Some array);
  cupsParseOptions true (tl allocs) (Some rest) s.1 s.2.
Proof.
  intros Htok Hname Hq Hfree Hdang Hws Hsp Hn.
  destruct (quote_cases _ Hq) as (_ & Hq0 & _).
  eapply parse_options_step; [done|by apply name_char_not_space|done|].
  rewrite (cstring_prefix _ (tok ++ "="%char :: quote :: raw ++ quote :: ws) rest).
  - rewrite <- app_assoc. simpl. rewrite <- app_assoc. simpl.
    apply parse_round_quoted; rewrite ?hd_cstring; done.
  - rewrite <- app_assoc. simpl. by rewrite <- app_assoc.
  - apply Forall_app. split; [by apply name_char_no_nul|].
    repeat (apply Forall_cons; split; [done|]).
    apply Forall_app. split; [by eapply quote_free_no_nul|].
    apply Forall_cons. split; [done|by apply isspace_no_nul].
Qed.

Lemma parse_options_bare_step allocs tok raw ws rest n array :
  tok ≠ [] → forallb name_char tok = true →
  opens_value (hd NUL (raw ++ ws ++ rest)) = false →
  space_free raw = true → dangling raw = false →
  forallb isspace ws = true → isspace (hd NUL rest) = false →
  (ws = [] → rest = []) →
  (0 ≤ n)%Z →
  cupsParseOptions true allocs
    (Some (tok ++ "="%char :: raw ++ ws ++ rest)) n (Some array) =
  s ← cupsAddOption (hd true allocs) (Some tok) (Some (unescape raw)) n (Some array);
  cupsParseOptions true (tl allocs) (Some rest) s.1 s.2.
Proof.
  intros Htok Hname Hopen Hfree Hdang Hws Hsp Hend Hn.
  eapply parse_options_step; [done|by apply name_char_not_space|done|].
  rewrite (cstring_prefix _ (tok ++ "="%char :: raw ++ ws) rest).
  - rewrite <- app_assoc. simpl. rewrite <- app_assoc.
    apply parse_round_bare; rewrite ?hd_cstring; try done.
    + destruct raw as [|c raw]; [|done]. simpl in *. by rewrite hd_app_cstring.
    + intros ->. by rewrite Hend.
  - rewrite <- app_assoc. simpl. by rewrite <- app_assoc.
  - apply Forall_app. split; [by apply name_char_no_nul|].
    apply Forall_cons. split; [done|].
    apply Forall_app. split; [by apply space_free_no_nul_text|by apply isspace_no_nul].
Qed.

(** Parsing an argument that starts with a pair is adding that pair and
    then parsing what follows it: for a name with no value, for a name
    with a quoted value and for a name with a space-delimited value (the
    store being there, with a count that is not negative, and [strdup]
    finding memory).  So the pairs of an argument reach the store one by
    one, from left to right, and a later pair finds the store as the
    earlier ones have left it. *)
Theorem parse_options_pair_by_pair :
  (∀ allocs tok ws rest n array,
     tok ≠ [] → forallb name_char tok = true →
     forallb isspace ws = true → name_char (hd NUL (ws ++ rest)) = false →
     isspace (hd NUL rest) = false → Ascii.eqb (hd NUL rest) "=" = false →
     (0 ≤ n)%Z →
     cupsParseOptions true allocs (Some (tok ++ ws ++ rest)) n (Some array) =
     s ← cupsAddOption (hd true allocs)
           (Some (if no_prefix tok then drop 2 tok else tok))
           (Some (lit (if no_prefix tok then "false" else "true"))) n (Some array);
     cupsParseOptions true (tl allocs) (Some rest) s.1 s.2) ∧
  (∀ allocs tok quote raw ws rest n array,
     tok ≠ [] → forallb name_char tok = true →
     quote = squote ∨ quote = dquote →
     quote_free quote raw = true → dangling raw = false →
     forallb isspace ws = true → isspace (hd NUL rest) = false →
     (0 ≤ n)%Z →
     cupsParseOptions true allocs
       (Some (tok ++ "="%char :: quote :: raw ++ quote :: ws ++ rest)) n (Some array) =
     s ← cupsAddOption (hd true allocs) (Some tok) (Some (unescape raw)) n (Some array);
     cupsParseOptions true (tl allocs) (Some rest) s.1 s.2) ∧
  (∀ allocs tok raw ws rest n array,
     tok ≠ [] → forallb name_char tok = true →
     opens_value (hd NUL (raw ++ ws ++ rest)) = false →
     space_free raw = true → dangling raw = false →
     forallb isspace ws = true → isspace (hd NUL rest) = false →
     (ws = [] → rest = []) →
     (0 ≤ n)%Z →
     cupsParseOptions true allocs
       (Some (tok ++ "="%char :: raw ++ ws ++ rest)) n (Some array) =
     s ← cupsAddOption (hd true allocs) (Some tok) (Some (unescape raw)) n (Some array);
     cupsParseOptions true (tl allocs) (Some rest) s.1 s.2).
Proof.
  split; [|split].
  - intros. by apply parse_options_boolean_step.
  - intros. by apply parse_options_quoted_step.
  - intros. by apply parse_options_bare_step.
Qed.

Lemma parse_options_pair_by_pair_witness :
  cupsParseOptions true [] (Some (lit "media='a 4' nofold x=1")) 0 (Some []) =
  s ← cupsAddOption true (Some (lit "media")) (Some (lit "a 4")) 0 (Some []);
  cupsParseOptions true [] (Some (lit "nofold x=1")) s.1 s.2.
Proof.
  apply (proj1 (proj2 parse_options_pair_by_pair) [] (lit "media") squote (lit "a 4")
           (lit " ") (lit "nofold x=1") 0%Z []).
  - discriminate.
  - reflexivity.
  - left; reflexivity.
  - reflexivity.
  - reflexivity.
  - reflexivity.
  - reflexivity.
  - discriminate.
Defined.

(** ** White space the parser steps over *)

(** White space at the start of the argument changes nothing to what
    [cupsParseOptions] does. *)
Theorem leading_white_space_ignored strdup_ok allocs ws arg n options :
  forallb isspace ws = true →
  cupsParseOptions strdup_ok allocs (Some (ws ++ arg)) n options =
  cupsParseOptions strdup_ok allocs (Some arg) n options.
Proof.
  intros Hws. unfold cupsParseOptions.
  destruct (_ || _); [done|]. destruct (negb strdup_ok); [done|].
  rewrite cstring_app by by apply isspace_no_nul.
  rewrite leading_spaces_app by done. simpl app.
  rewrite (leading_spaces_shift ws).
  pose proof (leading_spaces_length [] (cstring arg)) as Hlen.
  destruct (leading_spaces [] (cstring arg)) as [d r]. cbn [fst snd] in *.
  rewrite (parse_loop_shift _ _ (ws ++ d)), (parse_loop_shift _ _ d).
  apply parse_loop_fuel; simpl; rewrite ?length_app; lia.
Qed.

Lemma leading_white_space_ignored_witness :
  cupsParseOptions true [] (Some (lit "  " ++ lit "a=1")) 0 (Some []) =
  cupsParseOptions true [] (Some (lit "a=1")) 0 (Some []).
Proof.
  apply (leading_white_space_ignored true [] (lit "  ") (lit "a=1") 0%Z (Some [])).
  reflexivity.
Defined.

Lemma parse_round_name_spaces alloc_ok before tok ws v n options :
  tok ≠ [] → forallb name_char tok = true → forallb isspace ws = true →
  parse_round alloc_ok (before, tok ++ ws ++ "="%char :: v) n options =
  '(value, b) ← parse_value ((before ++ tok ++ replicate (length ws) NUL) ++ [NUL], v);
  let b := space_loop b.1 b.2 in
  s ← cupsAddOption alloc_ok (Some (bytes_at b (length before)))
                    (Some (bytes_at b value)) n options;
  Done (Next b s).
Proof.
  intros Htok Hname Hws. pose proof (name_char_no_nul _ Hname) as Hnul.
  unfold parse_round. cbn [fst snd].
  assert (peek (before, tok ++ ws ++ "="%char :: v) ≠ NUL) as Hpeek.
  { unfold peek. destruct tok as [|c tok]; [done|]. simpl.
    by apply Forall_cons in Hnul as [? _]. }
  rewrite (eqb_NUL_false _ Hpeek), name_loop_token; [|done|].
  2:{ destruct ws as [|c ws]; [done|]. simpl in *.
      apply andb_prop in Hws as [Hc _]. unfold name_char. by rewrite Hc. }
  unfold offset. cbn [fst snd].
  replace (length (before ++ tok) =? length before) with false
    by (symmetry; apply (offset_moved before tok Htok)).
  rewrite space_loop_spaces by done.
  unfold peek at 1, terminate. cbn [fst snd hd tl].
  rewrite Ascii.eqb_refl. cbn [negb]. by rewrite <- !app_assoc.
Qed.

Lemma parse_from_name_spaces allocs tok ws v n options :
  tok ≠ [] → forallb name_char tok = true → forallb isspace ws = true →
  parse_from allocs ([], tok ++ ws ++ "="%char :: v) n options =
  parse_from allocs ([], tok ++ "="%char :: v) n options.
Proof.
  intros Htok Hname Hws. pose proof (name_char_no_nul _ Hname) as Hnul.
  rewrite !parse_from_unfold, parse_round_name_spaces, parse_round_value by done.
  cbn [length app].
  rewrite <- (app_nil_r ((tok ++ replicate (length ws) NUL) ++ [NUL])).
  rewrite <- (app_nil_r (tok ++ [NUL])), !parse_value_shift.
  destruct (parse_value ([], v)) as [[k [d3 r3]]| |];
    cbn [mbind outcome_bind fst snd]; try done.
  rewrite (space_loop_shift (_ ++ d3)), (space_loop_shift ((tok ++ [NUL]) ++ d3)).
  destruct (space_loop [] r3) as [d4 r4]. cbn [fst snd].
  rewrite !(cupsAddOption_cstring _ (bytes_at _ 0)).
  rewrite <- !app_assoc.
  rewrite (cstring_at _ r4 0 [] tok
             (replicate (length ws) NUL ++ [NUL] ++ d3 ++ d4)); try done.
  2:{ by destruct ws. }
  rewrite (cstring_at _ r4 0 [] tok ([NUL] ++ d3 ++ d4)); try done.
  rewrite (app_assoc tok (replicate _ _)), (app_assoc _ [NUL] (d3 ++ d4)).
  rewrite (app_assoc tok [NUL] (d3 ++ d4)), <- !(app_assoc tok _ [NUL]).
  rewrite !bytes_at_shift.
  destruct (cupsAddOption _ _ _ _ _) as [s| |]; simpl; try done.
  by rewrite (parse_from_shift _ (_ ++ _)), (parse_from_shift _ (_ ++ _)).
Qed.

(** White space between a name and its [=] changes nothing to what
    [cupsParseOptions] does: [name =value] is parsed as [name=value]. *)
Theorem white_space_before_equals_ignored strdup_ok allocs tok ws v n options :
  tok ≠ [] → forallb name_char tok = true → forallb isspace ws = true →
  cupsParseOptions strdup_ok allocs (Some (tok ++ ws ++ "="%char :: v)) n options =
  cupsParseOptions strdup_ok allocs (Some (tok ++ "="%char :: v)) n options.
Proof.
  intros Htok Hname Hws. unfold cupsParseOptions.
  destruct (_ || _); [done|]. destruct (negb strdup_ok); [done|].
  pose proof (name_char_no_nul _ Hname) as Hnul.
  rewrite (cstring_prefix _ (tok ++ ws ++ ["="%char]) v),
    (cstring_prefix (tok ++ "="%char :: v) (tok ++ ["="%char]) v).
  - rewrite !leading_spaces_none by
      (rewrite <- ?app_assoc; by apply name_char_not_space).
    rewrite <- !app_assoc. simpl.
    by apply parse_from_name_spaces.
  - by rewrite <- app_assoc.
  - apply Forall_app. split; [done|]. by repeat constructor.
  - by rewrite <- !app_assoc.
  - apply Forall_app. split; [done|]. apply Forall_app.
    split; [by apply isspace_no_nul|by repeat constructor].
Qed.

Lemma white_space_before_equals_ignored_witness :
  cupsParseOptions true [] (Some (lit "a" ++ lit "  " ++ "="%char :: lit "1 b")) 0 (Some []) =
  cupsParseOptions true [] (Some (lit "a" ++ "="%char :: lit "1 b")) 0 (Some []).
Proof.
  apply (white_space_before_equals_ignored true [] (lit "a") (lit "  ") (lit "1 b")
           0%Z (Some [])).
  - discriminate.
  - reflexivity.
  - reflexivity.
Defined.

(** ** Collection values with braces inside *)

Lemma literal_no_nul s : literal s = true → no_nul s.
Proof.
  unfold literal. induction s as [|c s IH]; simpl; [constructor|].
  intros [[Hc _]%andb_prop Hs]%andb_prop. constructor; [|by apply IH].
  by destruct (Ascii.eqb_spec c NUL).
Qed.

Lemma collection_loop_balanced open depth before s :
  balanced open s = true → literal s = true →
  depth = (Z.of_nat open + 1)%Z → (depth + Z.of_nat (length s) < INT_MAX)%Z →
  collection_loop depth before s = Done (before ++ s, []).
Proof.
  revert open depth before. induction s as [|c s IH]; intros open depth before.
  - intros _ _ _ _. simpl. by rewrite app_nil_r.
  - simpl balanced. unfold literal. simpl forallb. fold (literal s).
    intros Hbal [[H0 Hb]%andb_prop Hs]%andb_prop Hdepth Hmax.
    apply negb_true_iff in H0, Hb. simpl length in Hmax.
    rewrite collection_loop_cons, H0, Hb. cbn [andb].
    replace (before ++ c :: s) with ((before ++ [c]) ++ s) by by rewrite <- app_assoc.
    destruct (Ascii.eqb c "{").
    { replace (depth =? INT_MAX)%Z with false by (symmetry; apply Z.eqb_neq; lia).
      apply (IH (S open)); [done|done|lia|lia]. }
    destruct (Ascii.eqb c "}"); [|apply (IH open); [done|done|lia|lia]].
    destruct open as [|open]; [done|].
    replace (depth =? INT_MIN)%Z with false
      by (symmetry; apply Z.eqb_neq; unfold INT_MIN; lia).
    replace (depth - 1 =? 0)%Z with false by (symmetry; apply Z.eqb_neq; lia).
    apply (IH open); [done|done|lia|lia].
Qed.

(** The value of a pair that opens with a brace runs to the end of the
    argument as long as the text behind the opening brace closes no brace
    it has not opened itself (and holds no backslash): the brace that
    matches the opening one does not end the value, whatever the nesting.
    [cupsParseOptions] then adds the single pair of the name and all the
    text from the opening brace on. *)
Theorem collection_value_runs_to_end allocs tok s n array :
  tok ≠ [] → forallb name_char tok = true →
  literal s = true → balanced 1 s = true →
  (Z.of_nat (length s) + 2 < INT_MAX)%Z → (0 ≤ n)%Z →
  cupsParseOptions true allocs (Some (tok ++ "="%char :: "{"%char :: s)) n (Some array) =
  cupsAddOption (hd true allocs) (Some tok) (Some ("{"%char :: s)) n (Some array).
Proof.
  intros Htok Hname Hlit Hbal Hlen Hn.
  pose proof (name_char_no_nul _ Hname) as Hnul.
  pose proof (literal_no_nul _ Hlit) as Hs.
  rewrite cupsParseOptions_loop by done.
  rewrite cstring_id by (apply Forall_app; split; [done|]; by repeat constructor).
  rewrite leading_spaces_none by by apply name_char_not_space.
  cbn [snd]. rewrite parse_from_unfold, parse_round_value by done.
  unfold parse_value, peek, offset. cbn [fst snd hd app].
  change (Ascii.eqb "{" squote || Ascii.eqb "{" dquote) with false.
  change (Ascii.eqb "{" "{") with true. cbv iota.
  rewrite (collection_loop_balanced 0 1 _ ("{"%char :: s)); [|done|..].
  2:{ unfold literal. simpl. by rewrite <- Hlit. }
  2:{ done. }
  2:{ simpl length. lia. }
  cbn [mbind outcome_bind]. unfold close_value, peek. cbn [fst snd hd].
  change (negb (Ascii.eqb NUL NUL)) with false. cbv iota. cbn [space_loop fst snd].
  rewrite (cupsAddOption_cstring _ (bytes_at _ _)), (cupsAddOption_cstring _ tok).
  rewrite (cstring_at _ [] 0 [] tok ([NUL] ++ "{"%char :: s)); try done.
  2:{ by rewrite <- app_assoc. }
  unfold bytes_at. cbn [fst snd]. rewrite app_nil_r, drop_app_length.
  rewrite (cstring_id tok) by done.
  destruct (cupsAddOption _ _ _ _ _) as [st| |]; try done.
  cbn [mbind outcome_bind]. rewrite parse_from_end. by destruct st.
Qed.

Lemma collection_value_runs_to_end_witness :
  cupsParseOptions true [] (Some (lit "opt" ++ "="%char :: "{"%char :: lit "a={b=1} c=2} d=3"))
                   0 (Some []) =
  cupsAddOption true (Some (lit "opt")) (Some ("{"%char :: lit "a={b=1} c=2} d=3"))
                0 (Some []).
Proof.
  apply (collection_value_runs_to_end [] (lit "opt") (lit "a={b=1} c=2} d=3") 0%Z []).
  - discriminate.
  - reflexivity.
  - reflexivity.
  - reflexivity.
  - vm_compute. reflexivity.
  - lia.
Defined.

(** ** Storing twice under one name *)

(** Storing a value under a name and then another value under the same
    name leaves the store as storing the second value alone does: the
    value stored last is the one that stays, and the first call leaves no
    other trace, whatever the name, the count and the store are. *)
Theorem add_option_last_value_wins name value1 value2 n options :
  (s ← cupsAddOption true name (Some value1) n options;
   cupsAddOption true name (Some value2) s.1 s.2) =
  cupsAddOption true name (Some value2) n options.
Proof.
  destruct name as [name|]; [|done].
  destruct options as [array|]; [|done].
  destruct (Ascii.eqb_spec (hd NUL name) NUL) as [E|E].
  { rewrite !(cupsAddOption_empty_name _ _ _ n) by done. simpl.
    by rewrite cupsAddOption_empty_name. }
  destruct (Z.ltb_spec n 0) as [Hn|Hn].
  { rewrite !(cupsAddOption_invalid _ _ _ n) by auto. simpl.
    by rewrite cupsAddOption_invalid by auto. }
  destruct (add_loop name 0 n array) as [i| |] eqn:Hloop.
  2,3: unfold cupsAddOption; rewrite (eqb_NUL_false _ E);
       destruct (Z.ltb_spec n 0); [lia|]; simpl; by rewrite Hloop.
  apply add_loop_Done in Hloop as (Hi & Hall & Hlen & Hlt & Hge).
  rewrite Z.sub_0_r in *.
  destruct (Z.lt_ge_cases i n) as [Hin|Hin].
  - destruct (Hlt Hin) as (o & Ho & Hsame).
    assert (entries n array =
            take (Z.to_nat i) array ++ o :: drop (S (Z.to_nat i)) (entries n array))
      as Hent.
    { rewrite <- (take_drop_middle (entries n array) (Z.to_nat i) o) at 1.
      - unfold entries. by rewrite take_take, Nat.min_l by lia.
      - unfold entries. rewrite lookup_take_lt by lia. done. }
    assert (length (take (Z.to_nat i) array) = Z.to_nat i) as Hl1
      by (rewrite length_take; lia).
    rewrite !(cupsAddOption_replace _ _ _ n array _ _ _ E Hent Hall Hsame).
    cbn [mbind outcome_bind fst snd]. rewrite Hl1.
    rewrite (cupsAddOption_replace _ _ _ n _ (take (Z.to_nat i) array)
               (cups_option.make (cups_option.name o) (cstring value1))
               (drop (S (Z.to_nat i)) (entries n array))); [|done| |done|].
    + by rewrite Hl1, list_insert_insert_eq.
    + unfold entries in *. rewrite take_insert_lt by lia.
      rewrite Hent at 1. rewrite <- Hl1 at 1.
      rewrite insert_app_r_alt, Nat.sub_diag by done. reflexivity.
    + done.
  - specialize (Hge Hin). assert (i = n) as -> by lia.
    rewrite !(cupsAddOption_fresh _ _ _ n array) by done.
    destruct (n =? INT_MAX)%Z eqn:Hmax; [done|].
    apply Z.eqb_neq in Hmax.
    cbn [mbind outcome_bind fst snd].
    pose proof (entries_length n array Hlen) as Hl.
    rewrite (cupsAddOption_replace _ _ _ _ _ (entries n array)
               (cups_option.make (cstring name) (cstring value1)) []); [|done| |done|].
    + rewrite <- (Nat.add_0_r (length (entries n array))).
      rewrite insert_app_r. reflexivity.
    + unfold entries at 1. apply take_ge. rewrite length_app, Hl. simpl. lia.
    + unfold same_name. simpl. rewrite strcasecmp_cstring_l. apply strcasecmp_refl.
Qed.

(** ** A failed allocation in the middle of an argument *)

Lemma cupsAddOption_no_memory name value n array :
  name ≠ [] → no_nul name → (0 ≤ n < INT_MAX)%Z → Z.to_nat n ≤ length array →
  Forall (fun o => ¬ same_name name o) (entries n array) →
  cupsAddOption false (Some name) (Some value) n (Some array) = Done (0%Z, Some array).
Proof.
  intros Hname Hnul [Hn Hmax] Hlen Hnew. rewrite cupsAddOption_fresh; [|  |done..].
  - by destruct (Z.eqb_spec n INT_MAX); [lia|].
  - destruct name as [|c name]; [done|]. by apply Forall_cons in Hnul as [? _].
Qed.

(** When [cupsAddOption] finds no memory for a pair with a new name in the
    middle of an argument, [cupsParseOptions] goes on with the count 0 it
    got back: the pairs that follow are parsed as into an empty store, and
    the entries stored until then are no longer counted.  This holds for
    a name with no value (what is left of it once a leading [no] is taken
    off being the new name, and not empty), for a name with a quoted
    value and for a name with a space-delimited value, the count given
    being below [INT_MAX]. *)
Theorem failed_allocation_restarts_count :
  (∀ allocs tok ws rest n array,
     tok ≠ [] → forallb name_char tok = true →
     forallb isspace ws = true → name_char (hd NUL (ws ++ rest)) = false →
     isspace (hd NUL rest) = false → Ascii.eqb (hd NUL rest) "=" = false →
     (0 ≤ n < INT_MAX)%Z → Z.to_nat n ≤ length array →
     (if no_prefix tok then drop 2 tok else tok) ≠ [] →
     Forall (fun o => ¬ same_name (if no_prefix tok then drop 2 tok else tok) o)
            (entries n array) →
     cupsParseOptions true (false :: allocs) (Some (tok ++ ws ++ rest)) n (Some array) =
     cupsParseOptions true allocs (Some rest) 0 (Some array)) ∧
  (∀ allocs tok quote raw ws rest n array,
     tok ≠ [] → forallb name_char tok = true →
     quote = squote ∨ quote = dquote →
     quote_free quote raw = true → dangling raw = false →
     forallb isspace ws = true → isspace (hd NUL rest) = false →
     (0 ≤ n < INT_MAX)%Z → Z.to_nat n ≤ length array →
     Forall (fun o => ¬ same_name tok o) (entries n array) →
     cupsParseOptions true (false :: allocs)
       (Some (tok ++ "="%char :: quote :: raw ++ quote :: ws ++ rest)) n (Some array) =
     cupsParseOptions true allocs (Some rest) 0 (Some array)) ∧
  (∀ allocs tok raw ws rest n array,
     tok ≠ [] → forallb name_char tok = true →
     opens_value (hd NUL (raw ++ ws ++ rest)) = false →
     space_free raw = true → dangling raw = false →
     forallb isspace ws = true → isspace (hd NUL rest) = false →
     (ws = [] → rest = []) →
     (0 ≤ n < INT_MAX)%Z → Z.to_nat n ≤ length array →
     Forall (fun o => ¬ same_name tok o) (entries n array) →
     cupsParseOptions true (false :: allocs)
       (Some (tok ++ "="%char :: raw ++ ws ++ rest)) n (Some array) =
     cupsParseOptions true allocs (Some rest) 0 (Some array)).
Proof.
  split; [|split].
  - intros allocs tok ws rest n array Htok Hname Hws Hend Hsp Heq Hn Hlen Hleft Hnew.
    rewrite parse_options_boolean_step by (done || lia). cbn [hd tl].
    rewrite cupsAddOption_no_memory; [done|done| |done..].
    pose proof (name_char_no_nul _ Hname) as Hnul.
    destruct (no_prefix tok); [|done]. by apply Forall_drop.
  - intros allocs tok quote raw ws rest n array
      Htok Hname Hq Hfree Hdang Hws Hsp Hn Hlen Hnew.
    rewrite parse_options_quoted_step by (done || lia). cbn [hd tl].
    rewrite cupsAddOption_no_memory; [done|done| |done..].
    by apply name_char_no_nul.
  - intros allocs tok raw ws rest n array
      Htok Hname Hopen Hfree Hdang Hws Hsp Hend Hn Hlen Hnew.
    rewrite parse_options_bare_step by (done || lia). cbn [hd tl].
    rewrite cupsAddOption_no_memory; [done|done| |done..].
    by apply name_char_no_nul.
Qed.

Lemma failed_allocation_restarts_count_witness :
  cupsParseOptions true [false]
    (Some (lit "b" ++ "="%char :: lit "2" ++ lit " " ++ lit "c=3")) 1
    (Some [cups_option.make (lit "a") (lit "1")]) =
  cupsParseOptions true [] (Some (lit "c=3")) 0
    (Some [cups_option.make (lit "a") (lit "1")]).
Proof.
  apply (proj2 (proj2 failed_allocation_restarts_count)
           [] (lit "b") (lit "2") (lit " ") (lit "c=3")
           1%Z [cups_option.make (lit "a") (lit "1")]).
  - discriminate.
  - reflexivity.
  - reflexivity.
  - reflexivity.
  - reflexivity.
  - reflexivity.
  - reflexivity.
  - discriminate.
  - unfold INT_MAX. lia.
  - apply le_n.
  - constructor; [discriminate|constructor].
Defined.
